(** * pomoxis.common.util: region strings and longest-read selection

    A shallow embedding of [parse_regions] and of the selection logic of
    [extract_long_reads] from [pomoxis/common/util.py], with the properties
    of the two that the specification states.

    Conventions of the embedding.
    - A Python [str] is a Rocq [string]; its characters are the code points
      0..255 (ASCII and the Latin-1 supplement), on which the Unicode classes
      [\w] and [\d] of the [re] module are tabulated below.
    - A Python [int] is a [Z]; a Python [float] is a [spec_float] at
      precision 53 and exponent bound 1024 (IEEE 754 binary64), with the
      operations of the standard library's [SpecFloat]. [int] on a string
      keeps the interpreter's default limit of 4300 digits.
    - A raised exception is a value [Raise e] of the [result] monad; the
      statements of a function are sequenced with its bind.
    - A [dict] from reference names to lengths is a [gmap string Z].
    - numpy's [argsort] and [argpartition] are parameters of the selection
      (record [numpy]); they are constrained by their documented contract
      only, since the order among equal keys is left open by numpy. *)

From Stdlib Require Import ZArith Ascii String List Lia.
From Stdlib Require Import Floats.SpecFloat.
From stdpp Require Import base option list strings gmap.

Local Open Scope Z_scope.

(** ** Exceptions and the result monad *)

Inductive exn : Type :=
| AttributeError
| KeyError (key : string)
| ValueError
| OverflowError
| ZeroDivisionError
| IndexError
| TypeError.

Inductive result (A : Type) : Type :=
| Ok (a : A)
| Raise (e : exn).
Arguments Ok {A} a.
Arguments Raise {A} e.

Global Instance result_ret : MRet result := fun A a => Ok a.
Global Instance result_bind : MBind result := fun A B f m =>
  match m with
  | Ok a => f a
  | Raise e => Raise e
  end.

Definition raises {A} (r : result A) : Prop := exists e, r = Raise e.

(** ** Character classes of the [re] module

    [\d] is the Unicode category Nd: below 256 these are the ten ASCII digits.
    [\w] is [str.isalnum] or the underscore: below 256 these are the ASCII
    letters and digits, the underscore, and the letters and numerals of the
    Latin-1 supplement. *)

Definition is_digit (c : ascii) : bool :=
  let n := N_of_ascii c in ((48 <=? n) && (n <=? 57))%N.

Definition is_word (c : ascii) : bool :=
  let n := N_of_ascii c in
  (((48 <=? n) && (n <=? 57)) || ((65 <=? n) && (n <=? 90)) || (n =? 95)
   || ((97 <=? n) && (n <=? 122))
   || (n =? 170) || (n =? 178) || (n =? 179) || (n =? 181) || (n =? 185)
   || (n =? 186) || ((188 <=? n) && (n <=? 190))
   || ((192 <=? n) && (n <=? 214)) || ((216 <=? n) && (n <=? 246))
   || ((248 <=? n) && (n <=? 255)))%N.

Definition is_colon (c : ascii) : bool := Ascii.eqb c ":".
Definition is_dash (c : ascii) : bool := Ascii.eqb c "-".

(** ** A backtracking matcher for the constructs of [_region_decoder_]

    Each combinator takes the unread input and a continuation for the rest of
    the pattern, tries its alternatives in the order of Python's engine
    (greedy: the longest repetition first) and answers with the first
    success. *)

Section Regex.
Context {A : Type}.

(** [cls*] *)
Fixpoint re_star (cls : ascii -> bool) (s : string)
         (k : string -> option A) : option A :=
  match s with
  | String c s' =>
      if cls c then
        match re_star cls s' k with
        | Some r => Some r
        | None => k s
        end
      else k s
  | EmptyString => k s
  end.

(** [cls+] *)
Definition re_plus (cls : ascii -> bool) (s : string)
           (k : string -> option A) : option A :=
  match s with
  | String c s' => if cls c then re_star cls s' k else None
  | EmptyString => None
  end.

(** a literal character *)
Definition re_lit (c0 : ascii) (s : string)
           (k : string -> option A) : option A :=
  match s with
  | String c s' => if Ascii.eqb c c0 then k s' else None
  | EmptyString => None
  end.

(** [(body)*]. An iteration of the body used below consumes input, so
    [fuel] = the length of the input is never exhausted before the
    input is. *)
Fixpoint re_star_group (fuel : nat)
         (body : string -> (string -> option A) -> option A)
         (s : string) (k : string -> option A) : option A :=
  match fuel with
  | O => k s
  | S fuel' =>
      match body s (fun r => re_star_group fuel' body r k) with
      | Some r => Some r
      | None => k s
      end
  end.
End Regex.

(** The text of [s] in front of its suffix [r]: what a group captured when
    it started at [s] and the match went on at [r]. *)
Definition consumed (s r : string) : string :=
  String.substring 0 (String.length s - String.length r) s.

(** The three named groups of a match. *)
Record groupdict : Type := {
  g_ref_name : string;
  g_start : string;
  g_end : string
}.

(** [_region_decoder_], the compiled pattern, here with its four parts set
    apart by spaces:

      (?P<ref_name> \w+ )   :*   (?P<start> (\d+-)* )   (?P<end> \d* )

    It is applied with [.match(region)], which anchors the match at the start
    of the string only. [None] is Python's [None] for no match. *)
Definition _region_decoder_ (region : string) : option groupdict :=
  re_plus is_word region (fun r1 =>
  re_star is_colon r1 (fun r2 =>
  re_star_group (String.length r2)
    (fun t k => re_plus is_digit t (fun u => re_lit "-" u k)) r2 (fun r3 =>
  re_star is_digit r3 (fun r4 =>
  Some {| g_ref_name := consumed region r1;
          g_start := consumed r2 r3;
          g_end := consumed r3 r4 |})))).

(** ** The Python built-ins used by [parse_regions] *)

(** [s.replace('-', '')] *)
Fixpoint remove_dashes (s : string) : string :=
  match s with
  | EmptyString => EmptyString
  | String c s' => if is_dash c then remove_dashes s' else String c (remove_dashes s')
  end.

Definition digit_value (c : ascii) : Z := Z.of_N (N_of_ascii c) - 48.

Fixpoint decimal_value (acc : Z) (s : string) : option Z :=
  match s with
  | EmptyString => Some acc
  | String c s' =>
      if is_digit c then decimal_value (10 * acc + digit_value c) s' else None
  end.

(** [sys.get_int_max_str_digits()], at its default: [int] refuses a string
    with more decimal digits, leading zeros counted. *)
Definition int_max_str_digits : Z := 4300.

Definition too_long (s : string) : bool :=
  int_max_str_digits <? Z.of_nat (String.length s).

(** [int(s)] on a string. [parse_regions] applies it to non-empty runs of
    decimal digits only (lemma [parse_region_matched] below), where it is the
    decimal value, or [ValueError] when the run has more digits than the
    limit; the model answers [ValueError] elsewhere. *)
Definition py_int (s : string) : result Z :=
  match s with
  | EmptyString => Raise ValueError
  | _ => if too_long s then Raise ValueError
         else match decimal_value 0 s with
              | Some v => Ok v
              | None => Raise ValueError
              end
  end.

(** ** [parse_regions] *)

(** [Region = namedtuple('Region', 'ref_name start end')] *)
Record Region : Type := {
  ref_name : string;
  start : Z;
  end_ : option Z
}.

Global Instance Region_eq_dec : EqDecision Region.
Proof. solve_decision. Defined.

(** [None if d[key] == '' else int(d[key])] *)
Definition int_or_none (s : string) : result (option Z) :=
  match s with
  | EmptyString => Ok None
  | _ => v ← py_int s; Ok (Some v)
  end.

(** The body of the loop of [parse_regions] for one region string. *)
Definition parse_region (ref_lengths : option (gmap string Z))
           (region : string) : result Region :=
  d ← match _region_decoder_ region with
      | Some d => Ok d
      | None => Raise AttributeError      (* None.groupdict() *)
      end;
  let start_text := remove_dashes (g_start d) in
  start_val ← int_or_none start_text;
  end_val ← int_or_none (g_end d);
  let start_val := match start_val with None => 0 | Some v => v end in
  end_val ← match end_val, ref_lengths with
            | None, Some lengths =>
                match lengths !! g_ref_name d with
                | Some len => Ok (Some len)
                | None => Raise (KeyError (g_ref_name d))
                end
            | _, _ => Ok end_val
            end;
  Ok {| ref_name := g_ref_name d; start := start_val; end_ := end_val |}.

Definition parse_regions (regions : list string)
           (ref_lengths : option (gmap string Z)) : result (list Region) :=
  mapM (parse_region ref_lengths) regions.

(** ** Python numbers used by [extract_long_reads] *)

Definition prec : Z := 53.
Definition emax : Z := 1024.

(** An integer as the exact, not yet rounded, binary number [a * 2^0]. *)
Definition exact_int (a : Z) : spec_float :=
  match a with
  | Z0 => S754_zero false
  | Zpos p => S754_finite false p 0
  | Zneg p => S754_finite true p 0
  end.

(** [a / b] on two [int]s: the quotient of the two integers rounded once, to
    nearest-even; [OverflowError] when it is too large for a float. *)
Definition py_truediv (a b : Z) : result spec_float :=
  if b =? 0 then Raise ZeroDivisionError
  else match SFdiv prec emax (exact_int a) (exact_int b) with
       | S754_infinity _ => Raise OverflowError
       | S754_nan => Raise OverflowError
       | q => Ok q
       end.

(** [float(n)], the conversion that [n * x] applies to its [int] operand:
    rounded to nearest-even, [OverflowError] when too large. *)
Definition py_float (n : Z) : result spec_float :=
  match binary_normalize prec emax n 0 false with
  | S754_infinity _ => Raise OverflowError
  | S754_nan => Raise OverflowError
  | x => Ok x
  end.

(** [n * x] for an [int] [n] and a [float] [x]; the product itself follows
    IEEE 754 and does not raise. *)
Definition py_mul_int_float (n : Z) (x : spec_float) : result spec_float :=
  fn ← py_float n; Ok (SFmul prec emax fn x).

(** [int(x)] on a [float]: truncation toward zero. *)
Definition py_int_float (x : spec_float) : result Z :=
  match x with
  | S754_zero _ => Ok 0
  | S754_finite s m e =>
      let v := match e with
               | Z0 => Zpos m
               | Zpos _ => Z.shiftl (Zpos m) e
               | Zneg k => Z.shiftr (Zpos m) (Zpos k)
               end in
      Ok (if s then - v else v)
  | S754_infinity _ => Raise OverflowError
  | S754_nan => Raise ValueError
  end.

(** [l[i]] for a list and a non-negative index. *)
Definition py_index {A} (l : list A) (i : nat) : result A :=
  match l !! i with
  | Some x => Ok x
  | None => Raise IndexError
  end.

(** [l[i:]] *)
Definition py_slice_from {A} (l : list A) (i : Z) : list A :=
  let n := Z.of_nat (length l) in
  let i := if i <? 0 then Z.max 0 (i + n) else Z.min i n in
  drop (Z.to_nat i) l.

(** Addition of two [numpy.int64] scalars: wraps around. *)
Definition wrap64 (z : Z) : Z := (z + 2^63) mod 2^64 - 2^63.

(** ** numpy *)

(** The two index arrays the selection asks numpy for: [argsort a] is
    [np.argsort(a)], and [partition a k] is the array [np.argpartition]
    builds for the normalised position [k]. *)
Record numpy : Type := {
  argsort : list Z -> list nat;
  partition : list Z -> nat -> list nat
}.

(** [a[i]] for an index taken from one of numpy's index arrays. *)
Definition key (a : list Z) (i : nat) : Z := nth i a 0.

(** [p] holds each of [0 .. n-1] once. *)
Definition is_index_array (n : nat) (p : list nat) : bool :=
  (length p =? n)%nat && forallb (fun i => existsb (Nat.eqb i) p) (seq 0 n).

Fixpoint ascending (a : list Z) (p : list nat) : bool :=
  match p with
  | i :: ((j :: _) as p') => (key a i <=? key a j) && ascending a p'
  | _ => true
  end.

(** The contract of [np.argsort(a)]: the indices that sort [a]. *)
Definition is_argsort (a : list Z) (p : list nat) : bool :=
  is_index_array (length a) p && ascending a p.

(** The contract of [np.argpartition(a, k)]: the element at position [k] is
    where it would be in sorted order, no larger element is in front of it
    and no smaller one behind it. *)
Definition is_argpartition (a : list Z) (k : nat) (p : list nat) : bool :=
  is_index_array (length a) p
  && forallb (fun i => key a i <=? key a (nth k p O)) (take k p)
  && forallb (fun j => key a (nth k p O) <=? key a j) (drop (S k) p).

(** numpy keeps the two contracts on the array [a]; for [argpartition], at
    the positions it accepts. *)
Definition numpy_contract (np : numpy) (a : list Z) : Prop :=
  is_argsort a (argsort np a) = true
  /\ forall k, (k < length a)%nat \/ a = [] ->
               is_argpartition a k (partition np a k) = true.

(** [np.argpartition(a, kth)] for a Python [int] [kth]. numpy makes an
    array of [kth] first: of type int64 where it fits, uint64 from [2^63] up
    to [2^64 - 1], and of Python objects otherwise, which is refused as not
    an integer ([TypeError]). The array is cast to the index type, where a
    uint64 from [2^63] on wraps around to [kth - 2^64]. A negative position
    counts from the end, and a position out of bounds is refused
    ([ValueError]) unless the array is empty. *)
Definition argpartition (np : numpy) (a : list Z) (kth : Z) : result (list nat) :=
  if (kth <? - 2^63) || (2^64 <=? kth) then Raise TypeError
  else
    let kth := if 2^63 <=? kth then kth - 2^64 else kth in
    let n := Z.of_nat (length a) in
    let k := if kth <? 0 then kth + n else kth in
    if negb (n =? 0) && ((k <? 0) || (n <=? k)) then Raise ValueError
    else Ok (partition np a (Z.to_nat k)).

(** A numpy whose two functions sort stably (ties by index), by insertion. *)
Fixpoint insert_index (a : list Z) (i : nat) (p : list nat) : list nat :=
  match p with
  | [] => [i]
  | j :: p' => if key a i <=? key a j then i :: p else j :: insert_index a i p'
  end.

Definition stable_argsort (a : list Z) : list nat :=
  foldr (insert_index a) [] (seq 0 (length a)).

Definition np_stable : numpy :=
  {| argsort := stable_argsort; partition := fun a _ => stable_argsort a |}.

(** ** [extract_long_reads] *)

(** The required, mutually exclusive options [--longest] and [--bases]. *)
Inductive filt : Type :=
| longest (percent : Z)
| bases (budget : Z).

(** [max_reads = int(len(ids) * (args.longest / 100))] *)
Definition max_reads (n : nat) (percent : Z) : result Z :=
  fraction ← py_truediv percent 100;
  product ← py_mul_int_float (Z.of_nat n) fraction;
  py_int_float product.

(** The loop [for i, j in enumerate(np.argsort(lengths), 1)], started with
    [i = 1], [cumsum = 0], [last = 1]; [js] is what is left of the index
    array. Its value is [last] when the loop is left. *)
Fixpoint bases_loop (lengths : list Z) (budget : Z) (js : list nat)
         (i : nat) (cumsum : Z) (last : nat) : result nat :=
  match js with
  | [] => Ok last
  | j :: js' =>
      len ← py_index lengths j;
      let cumsum := wrap64 (cumsum + len) in
      if budget <? cumsum then Ok last                (* break *)
      else bases_loop lengths budget js' (S i) cumsum i   (* last = i *)
  end.

(** The index array [longest] of the source, for either option. *)
Definition longest_indices (np : numpy) (lengths : list Z) (f : filt)
  : result (list nat) :=
  match f with
  | longest percent =>
      max_reads ← max_reads (length lengths) percent;
      part ← argpartition np lengths (- max_reads);
      Ok (py_slice_from part (- max_reads))
  | bases budget =>
      let order := reverse (argsort np lengths) in
      last ← bases_loop lengths budget (argsort np lengths) 1 0 1;
      Ok (take last order)
  end.

(** [extract_long_reads] from the loaded records on: [record_dict] is given
    as the list of its (id, length) pairs in key order, and the two calls of
    [SeqIO.write] as the ids they write: those of the output file, and those
    of the [--others] file when it is asked for. *)
Definition extract_long_reads (np : numpy) (record_dict : list (string * Z))
           (f : filt) (others : bool)
  : result (list string * option (list string)) :=
  let ids := record_dict.*1 in
  let lengths := record_dict.*2 in
  chosen ← longest_indices np lengths f;
  selected ← mapM (py_index ids) chosen;
  if others then
    rest ← mapM (py_index ids)
           (filter (fun i => i ∉ chosen) (seq 0 (length ids)));
    Ok (selected, Some rest)
  else Ok (selected, None).

(** ** What the matcher computes, in closed form

    Every part of the pattern after [\w+] can match the empty string, so the
    first, greedy attempt of each part succeeds and nothing is ever given
    back: the match is read off the input by the scans below (lemma
    [region_decoder_scan]). *)

Definition starts_with (cls : ascii -> bool) (s : string) : bool :=
  match s with
  | String c _ => cls c
  | EmptyString => false
  end.

(** The longest prefix of [s] in the class, and the input behind it. *)
Fixpoint run (cls : ascii -> bool) (s : string) : string :=
  match s with
  | String c s' => if cls c then String c (run cls s') else EmptyString
  | EmptyString => EmptyString
  end.

Fixpoint skip (cls : ascii -> bool) (s : string) : string :=
  match s with
  | String c s' => if cls c then skip cls s' else s
  | EmptyString => s
  end.

(** The input behind the longest sequence of groups [\d+-], and that
    sequence. *)
Fixpoint skip_groups (fuel : nat) (s : string) : string :=
  match fuel with
  | O => s
  | S fuel' =>
      if starts_with is_digit s then
        match skip is_digit s with
        | String d r => if is_dash d then skip_groups fuel' r else s
        | EmptyString => s
        end
      else s
  end.

Fixpoint run_groups (fuel : nat) (s : string) : string :=
  match fuel with
  | O => EmptyString
  | S fuel' =>
      if starts_with is_digit s then
        match skip is_digit s with
        | String d r =>
            if is_dash d
            then (run is_digit s ++ String d (run_groups fuel' r))%string
            else EmptyString
        | EmptyString => EmptyString
        end
      else EmptyString
  end.

Fixpoint all_of (cls : ascii -> bool) (s : string) : bool :=
  match s with
  | String c s' => cls c && all_of cls s'
  | EmptyString => true
  end.

Definition nonempty (s : string) : bool :=
  match s with
  | EmptyString => false
  | String _ _ => true
  end.

(** ** The specification's grammar and serialisation

    Stated from the specification, to compare the code with: a region string
    is a name of one or more word characters, optionally followed by a colon
    and position information, which is absent, [N], [N-] or [N-M]. *)

Definition spec_position (t : string) : bool :=
  match t with
  | EmptyString => true
  | _ =>
      nonempty (run is_digit t)
      && match skip is_digit t with
         | EmptyString => true
         | String d m => is_dash d && all_of is_digit m
         end
  end.

Definition spec_region_string (s : string) : bool :=
  nonempty (run is_word s)
  && match skip is_word s with
     | EmptyString => true
     | String c t => is_colon c && spec_position t
     end.

Definition digit_char (d : Z) : ascii := ascii_of_N (Z.to_N (48 + d)).

Fixpoint decimal_digits (fuel : nat) (n : Z) : string :=
  match fuel with
  | O => EmptyString
  | S fuel' =>
      if n <? 10 then String (digit_char n) EmptyString
      else (decimal_digits fuel' (n / 10)
            ++ String (digit_char (n mod 10)) EmptyString)%string
  end.

(** [str(n)] for an integer. *)
Definition py_str (n : Z) : string :=
  if n <? 0 then String "-" (decimal_digits (S (Z.to_nat (Z.log2 (- n)))) (- n))
  else decimal_digits (S (Z.to_nat (Z.log2 n))) n.

(** A Region written back in the grammar [ref[:start-end]]. An absent end is
    left out; a start of 0, the default, is left out unless [explicit_start]
    asks for it. *)
Definition serialize_region (explicit_start : bool) (r : Region) : string :=
  let omit_start := (start r =? 0) && negb explicit_start in
  (ref_name r ++
   match end_ r with
   | None => if omit_start then "" else ":" ++ py_str (start r) ++ "-"
   | Some e => if omit_start then ":" ++ py_str e
               else ":" ++ py_str (start r) ++ "-" ++ py_str e
   end)%string.

(** The position part of a region string with the groups [ds], each followed
    by its dash, in front of [e]; and the digits of the groups alone. *)
Definition with_groups (ds : list string) (e : string) : string :=
  foldr (fun d rest => d ++ String "-" rest)%string e ds.

Definition concat_digits (ds : list string) : string :=
  foldr String.append EmptyString ds.

Definition digit_run (d : string) : Prop :=
  nonempty d = true /\ all_of is_digit d = true.

(** The ids at the indices of an index array. *)
Definition ids_at (ids : list string) (p : list nat) : list string :=
  (fun i => ids !!! i) <$> p.

(** Two checks by evaluation: each percentage from 0 to 100 can be divided
    by 100, and a percentage of a few reads with fewer than 100 hundredths
    gives [max_reads = 0]. *)
Definition percent_divides (percent : nat) : bool :=
  match py_truediv (Z.of_nat percent) 100 with
  | Ok _ => true
  | Raise _ => false
  end.

Definition small_percent_zero (n percent : nat) : bool :=
  if Z.of_nat n * Z.of_nat percent <? 100
  then match max_reads n (Z.of_nat percent) with
       | Ok 0 => true
       | _ => false
       end
  else true.

(** [max_reads] is the floor of [n * percent / 100], or one less. *)
Definition near_floor (n percent : nat) : bool :=
  match max_reads n (Z.of_nat percent) with
  | Ok m =>
      let f := Z.of_nat n * Z.of_nat percent / 100 in
      (f - 1 <=? m) && (m <=? f)
  | Raise _ => false
  end.

(** The outputs with no id in them. *)
Definition no_ids (others : bool) : list string * option (list string) :=
  ([], if others then Some [] else None).

(** A hundred records with the ids "0" .. "99" and the lengths 1 .. 100. *)
Definition hundred : list (string * Z) :=
  (fun i => (py_str (Z.of_nat i), Z.of_nat (S i))) <$> seq 0 100.

(** 2048 records with the ids "0" .. "2047" and the lengths 1 .. 2048. *)
Definition reads2048 : list (string * Z) :=
  (fun i => (py_str (Z.of_nat i), Z.of_nat (S i))) <$> seq 0 2048.

(** The records of the specification's scenarios. *)
Definition abc : list (string * Z) := [("a", 100); ("b", 50); ("c", 10)].

(** ** [chunks]

    The generator keeps one iterator [it] over its input and hands out chunks
    that read from that same iterator when they are read. The state of the
    iterator is the list of the items it has not given yet. *)

Definition sys_maxsize : Z := 2 ^ 63 - 1.

(** [itertools.islice(it, n)]: the number of items it may take; it is refused
    unless [0 <= n <= sys.maxsize]. *)
Definition islice (n : Z) : result nat :=
  if (n <? 0) || (sys_maxsize <? n) then Raise ValueError
  else Ok (Z.to_nat n).

(** A chunk as it is yielded, [itertools.chain((first_el,), chunk_it)]:
    its first item, already taken, and the number of items [chunk_it] may
    still take from the shared iterator. *)
Record lazy_chunk (A : Type) : Type := {
  first_el : A;
  left_to_take : nat
}.
Arguments first_el {A} _.
Arguments left_to_take {A} _.

(** One turn of the loop [while True] up to its [yield]: [None] is the
    [return] on [StopIteration]. *)
Definition chunks_step {A} (n : Z) (it : list A)
  : result (option (lazy_chunk A * list A)) :=
  stop ← islice n;
  match stop, it with
  | S stop', x :: it' =>
      Ok (Some ({| first_el := x; left_to_take := stop' |}, it'))
  | _, _ => Ok None
  end.

(** Reading a chunk to its end, as [''.join(s)] or [list(s)] does, when the
    shared iterator is at [it]: the items of the chunk, and the iterator
    after it. *)
Definition read_chunk {A} (c : lazy_chunk A) (it : list A)
  : list A * list A :=
  (first_el c :: take (left_to_take c) it, drop (left_to_take c) it).

(** [for s in chunks(iterable, n)] with a body that reads [s] to its end
    before the next turn, as the two loops of [split_fastx] do: the chunks as
    they are read. Each turn takes an item, so [fuel] above the number of
    items is never used up. *)
Fixpoint chunks_read {A} (fuel : nat) (n : Z) (it : list A)
  : result (list (list A)) :=
  match fuel with
  | O => Ok []
  | S fuel' =>
      step ← chunks_step n it;
      match step with
      | None => Ok []
      | Some (c, it') =>
          let '(s, it'') := read_chunk c it' in
          rest ← chunks_read fuel' n it'';
          Ok (s :: rest)
      end
  end.

Definition chunks {A} (iterable : list A) (n : Z) : result (list (list A)) :=
  chunks_read (S (length iterable)) n iterable.

(** [list(chunks(iterable, n))]: the chunks are yielded one after the other
    and none is read; the chunks, and the shared iterator they are left
    with. *)
Fixpoint chunks_unread {A} (fuel : nat) (n : Z) (it : list A)
  : result (list (lazy_chunk A) * list A) :=
  match fuel with
  | O => Ok ([], it)
  | S fuel' =>
      step ← chunks_step n it;
      match step with
      | None => Ok ([], it)
      | Some (c, it') =>
          '(cs, it'') ← chunks_unread fuel' n it';
          Ok (c :: cs, it'')
      end
  end.

(** [[list(c) for c in cs]]: the chunks read in order afterwards. *)
Fixpoint read_chunks {A} (cs : list (lazy_chunk A)) (it : list A)
  : list (list A) :=
  match cs with
  | [] => []
  | c :: cs' => let '(s, it') := read_chunk c it in s :: read_chunks cs' it'
  end.

Definition chunks_listed {A} (iterable : list A) (n : Z)
  : result (list (list A)) :=
  '(cs, it) ← chunks_unread (S (length iterable)) n iterable;
  Ok (read_chunks cs it).

(** ** [split_fastx] *)

(** A record of [pysam.FastxFile]: [quality] is [None] for FASTA, [comment]
    is [None] when the header has none. *)
Module Fastx.
Record t : Type := {
  name : string;
  sequence : string;
  quality : option string;
  comment : option string
}.
End Fastx.

Definition newline : string := String (ascii_of_N 10) EmptyString.

(** What one turn of the inner loops writes: the chunk's name, the comment,
    the joined chunk of the sequence and, for FASTQ, of the quality. *)
Record chunk_record : Type := {
  chunk_name : string;
  chunk_comment : string;
  chunk_seq : string;
  chunk_qual : option string
}.

(** The two format strings of [fout.write]. *)
Definition write_chunk (c : chunk_record) : string :=
  match chunk_qual c with
  | None =>
      ">" +:+ chunk_name c +:+ " " +:+ chunk_comment c +:+ newline
      +:+ chunk_seq c +:+ newline
  | Some q =>
      "@" +:+ chunk_name c +:+ " " +:+ chunk_comment c +:+ newline
      +:+ chunk_seq c +:+ newline +:+ "+" +:+ newline +:+ q +:+ newline
  end.

(** [''.join(ss)] *)
Definition join (ss : list string) : string :=
  foldr String.append EmptyString ss.

(** [chunks(s, chunksize)] on a string, each chunk joined again. *)
Definition string_chunks (s : string) (chunksize : Z) : result (list string) :=
  cs ← chunks (list_ascii_of_string s) chunksize;
  Ok (fmap (M:=list) string_of_list_ascii cs).

(** ['{}_chunk{}'.format(name, i)] *)
Definition chunk_name_of (name : string) (i : nat) : string :=
  name +:+ "_chunk" +:+ py_str (Z.of_nat i).

(** The comment of every chunk of a record: the record's own, if it has
    one, and the chunk size. *)
Definition comment_of (rec : Fastx.t) (chunksize : Z) : string :=
  match Fastx.comment rec with
  | None => "chunk_length=" +:+ py_str chunksize
  | Some c => c +:+ " chunk_length=" +:+ py_str chunksize
  end.

(** The body of the loop [for rec in fin]: the chunks written for one
    record. *)
Definition record_chunks (rec : Fastx.t) (chunksize : Z)
  : result (list chunk_record) :=
  let comment := comment_of rec chunksize in
  match Fastx.quality rec with
  | None =>
      ss ← string_chunks (Fastx.sequence rec) chunksize;
      Ok (imap (fun i s =>
                  {| chunk_name := chunk_name_of (Fastx.name rec) i;
                     chunk_comment := comment;
                     chunk_seq := s; chunk_qual := None |}) ss)
  | Some qual =>
      ss ← string_chunks (Fastx.sequence rec) chunksize;
      qs ← string_chunks qual chunksize;
      Ok (imap (fun i sq =>
                  {| chunk_name := chunk_name_of (Fastx.name rec) i;
                     chunk_comment := comment;
                     chunk_seq := sq.1; chunk_qual := Some sq.2 |})
               (zip ss qs))
  end.

(** [split_fastx] from the records of the input file on: the text written
    to the output file. The only exception is the [ValueError] of a chunk
    size that [islice] refuses; it is raised at the first record, before
    anything is written. *)
Definition split_fastx (records : list Fastx.t) (chunksize : Z)
  : result string :=
  css ← mapM (fun rec => record_chunks rec chunksize) records;
  Ok (join (write_chunk <$> concat css)).

(** What is wrong with a region string, if anything: no match, a start or
    an end of more digits than [int] takes, or no end and a name that the
    map of reference lengths does not have. *)
Definition region_fault (L : option (gmap string Z)) (s : string)
  : option exn :=
  match _region_decoder_ s with
  | None => Some AttributeError
  | Some d =>
      if too_long (remove_dashes (g_start d)) || too_long (g_end d)
      then Some ValueError
      else if nonempty (g_end d) then None
      else match L with
           | None => None
           | Some lengths =>
               match lengths !! g_ref_name d with
               | Some _ => None
               | None => Some (KeyError (g_ref_name d))
               end
           end
  end.

(** A run of [n] digits 1. *)
Fixpoint ones (n : nat) : string :=
  match n with
  | O => EmptyString
  | S n' => String "1" (ones n')
  end.

(** What [ref_lengths] adds to a Region decoded without it: the end, where
    the string gave none. *)
Definition default_end (lengths : gmap string Z) (r : Region)
  : result Region :=
  match end_ r with
  | Some _ => Ok r
  | None =>
      match lengths !! ref_name r with
      | Some len =>
          Ok {| ref_name := ref_name r; start := start r; end_ := Some len |}
      | None => Raise (KeyError (ref_name r))
      end
  end.

(** The number of bases of all the reads together. *)
Definition total (lengths : list Z) : Z := foldr Z.add 0 lengths.

(** Example records: a FASTQ read of five bases and a FASTA read of four. *)
Definition fastq_read : Fastx.t :=
  {| Fastx.name := "r1"; Fastx.sequence := "ACGTA";
     Fastx.quality := Some "!#%&("; Fastx.comment := Some "run=7" |}.

Definition fasta_read : Fastx.t :=
  {| Fastx.name := "r2"; Fastx.sequence := "GGCC";
     Fastx.quality := None; Fastx.comment := None |}.

(** * Properties of [parse_regions] *)

(** The docstring's examples. *)
Example parse_regions_doc1 :
  parse_regions ["Ecoli"] None
  = Ok [ {| ref_name := "Ecoli"; start := 0; end_ := None |} ].
Proof. reflexivity. Qed.

Example parse_regions_doc2 :
  parse_regions ["Ecoli:1000-2000"] None
  = Ok [ {| ref_name := "Ecoli"; start := 1000; end_ := Some 2000 |} ].
Proof. reflexivity. Qed.

Example parse_regions_doc3 :
  parse_regions ["Ecoli:1000"] None
  = Ok [ {| ref_name := "Ecoli"; start := 0; end_ := Some 1000 |} ].
Proof. reflexivity. Qed.

Example parse_regions_doc4 :
  parse_regions ["Ecoli:500-"] None
  = Ok [ {| ref_name := "Ecoli"; start := 500; end_ := None |} ].
Proof. reflexivity. Qed.

Example parse_regions_doc5 :
  parse_regions ["Ecoli"] (Some {[ "Ecoli" := 4800000 ]})
  = Ok [ {| ref_name := "Ecoli"; start := 0; end_ := Some 4800000 |} ].
Proof. vm_compute. reflexivity. Qed.

(** ** The matcher in closed form *)

Lemma digit_not_dash c : is_digit c = true -> Ascii.eqb c "-" = false.
Proof. destruct c as [[] [] [] [] [] [] [] []]; vm_compute; congruence. Qed.

Lemma digit_is_word c : is_digit c = true -> is_word c = true.
Proof. destruct c as [[] [] [] [] [] [] [] []]; vm_compute; congruence. Qed.

Lemma append_cons c s t : (String c s ++ t)%string = String c (s ++ t).
Proof. reflexivity. Qed.

Lemma append_empty_l t : ("" ++ t)%string = t.
Proof. reflexivity. Qed.

Lemma append_empty_r s : (s ++ "")%string = s.
Proof. induction s as [|c s IH]; [done|]. by rewrite append_cons, IH. Qed.

Lemma append_assoc s t u : ((s ++ t) ++ u)%string = (s ++ (t ++ u))%string.
Proof.
  induction s as [|c s IH]; [done|]. by rewrite !append_cons, IH.
Qed.

Lemma length_append s t :
  String.length (s ++ t) = (String.length s + String.length t)%nat.
Proof.
  induction s as [|c s IH]; [done|]. rewrite append_cons. simpl. by rewrite IH.
Qed.

Lemma run_skip cls s : (run cls s ++ skip cls s)%string = s.
Proof.
  induction s as [|c s IH]; simpl; [done|].
  destruct (cls c); [|done]. by rewrite append_cons, IH.
Qed.

Lemma run_groups_skip fuel s :
  (run_groups fuel s ++ skip_groups fuel s)%string = s.
Proof.
  revert s. induction fuel as [|fuel IH]; intros s; simpl; [done|].
  destruct (starts_with is_digit s); [|done].
  destruct (skip is_digit s) as [|d r] eqn:Hs; [done|].
  destruct (is_dash d); [|done].
  rewrite append_assoc, append_cons, IH, <- Hs. apply run_skip.
Qed.

Lemma skip_length cls s : (String.length (skip cls s) <= String.length s)%nat.
Proof.
  induction s as [|c s IH]; simpl; [lia|].
  destruct (cls c); simpl; lia.
Qed.

(** The fuel of the group scan is never what stops it: any fuel from the
    length of the input on gives the same scan. *)
Lemma groups_fuel fuel fuel' s :
  (String.length s <= fuel)%nat -> (String.length s <= fuel')%nat ->
  skip_groups fuel s = skip_groups fuel' s
  /\ run_groups fuel s = run_groups fuel' s.
Proof.
  revert fuel' s. induction fuel as [|fuel IH]; intros fuel' s Hf Hf'.
  - destruct s; [|simpl in Hf; lia]. by destruct fuel'.
  - destruct fuel' as [|fuel']; [destruct s; [done | simpl in Hf'; lia]|].
    simpl. destruct s as [|c s]; [done|]. simpl starts_with.
    destruct (is_digit c) eqn:Hc; [|done].
    pose proof (skip_length is_digit s) as Hlen.
    simpl skip. rewrite Hc.
    destruct (skip is_digit s) as [|d r]; [done|].
    destruct (is_dash d); [|done].
    simpl in Hf, Hf', Hlen.
    destruct (IH fuel' r) as [-> ->]; [lia | lia | done].
Qed.

Lemma consumed_app p r : consumed (p ++ r)%string r = p.
Proof.
  unfold consumed. rewrite length_append.
  replace (String.length p + String.length r - String.length r)%nat
    with (String.length p) by lia.
  induction p as [|c p IH].
  - rewrite append_empty_l. by destruct r.
  - rewrite append_cons. simpl. by rewrite IH.
Qed.

Lemma consumed_run cls s : consumed s (skip cls s) = run cls s.
Proof. rewrite <- (run_skip cls s) at 1. apply consumed_app. Qed.

Lemma consumed_groups fuel s :
  consumed s (skip_groups fuel s) = run_groups fuel s.
Proof. rewrite <- (run_groups_skip fuel s) at 1. apply consumed_app. Qed.

Section RegexFacts.
Context {A : Type}.
Implicit Types k : string -> option A.

(** A greedy star never gives a character back when the rest of the
    pattern fails sooner wherever it fails after the whole run. *)
Lemma re_star_greedy cls s k :
  (forall t, k (skip cls t) = None -> k t = None) ->
  re_star cls s k = k (skip cls s).
Proof.
  intros Hk. induction s as [|c s IH]; simpl; [done|].
  destruct (cls c) eqn:Hc; [|done].
  rewrite IH. destruct (k (skip cls s)) eqn:Hs; [done|].
  apply Hk. simpl. by rewrite Hc.
Qed.

Lemma re_star_total cls s k :
  (forall r, is_Some (k r)) -> re_star cls s k = k (skip cls s).
Proof.
  intros Hk. apply re_star_greedy. intros t Ht.
  destruct (Hk (skip cls t)) as [x Hx]. congruence.
Qed.

(** One group [\d+-]: the whole run of digits, then the dash. *)
Lemma re_group_body t k :
  re_plus is_digit t (fun u => re_lit "-" u k)
  = if starts_with is_digit t then re_lit "-" (skip is_digit t) k else None.
Proof.
  destruct t as [|c t]; simpl; [done|].
  destruct (is_digit c) eqn:Hc; [|done].
  apply re_star_greedy. intros [|c' u]; simpl; [done|].
  destruct (is_digit c') eqn:Hc'; [|done].
  intros _. by rewrite digit_not_dash.
Qed.

Lemma re_star_group_scan fuel s k :
  (forall r, is_Some (k r)) ->
  re_star_group fuel
    (fun t k => re_plus is_digit t (fun u => re_lit "-" u k)) s k
  = k (skip_groups fuel s).
Proof.
  intros Hk. revert s. induction fuel as [|fuel IH]; intros s; simpl; [done|].
  rewrite re_group_body.
  destruct (starts_with is_digit s); [|done].
  destruct (skip is_digit s) as [|d r]; simpl; [done|].
  unfold is_dash. destruct (Ascii.eqb d "-"); [|done].
  rewrite IH. by destruct (Hk (skip_groups fuel r)) as [x ->].
Qed.
End RegexFacts.

(** The match of [_region_decoder_], read off the input by four scans. *)
Lemma region_decoder_scan s :
  _region_decoder_ s =
  if starts_with is_word s then
    let r2 := skip is_colon (skip is_word s) in
    let r3 := skip_groups (String.length r2) r2 in
    Some {| g_ref_name := run is_word s;
            g_start := run_groups (String.length r2) r2;
            g_end := run is_digit r3 |}
  else None.
Proof.
  unfold _region_decoder_.
  assert (Hend : forall (F : string -> groupdict) r3,
             re_star is_digit r3 (fun r4 => Some (F r4))
             = Some (F (skip is_digit r3))).
  { intros F r3. by rewrite re_star_total by eauto. }
  assert (Hgrp : forall (F : string -> string -> groupdict) r2,
             re_star_group (String.length r2)
               (fun t k => re_plus is_digit t (fun u => re_lit "-" u k)) r2
               (fun r3 => re_star is_digit r3 (fun r4 => Some (F r3 r4)))
             = Some (F (skip_groups (String.length r2) r2)
                       (skip is_digit (skip_groups (String.length r2) r2)))).
  { intros F r2. rewrite re_star_group_scan.
    - apply (Hend (F _)).
    - intros r. rewrite (Hend (F r)). eauto. }
  destruct s as [|c s]; simpl; [done|].
  destruct (is_word c) eqn:Hc; [|done].
  rewrite re_star_total.
  - rewrite re_star_total.
    + rewrite (Hgrp (fun r3 r4 =>
         {| g_ref_name := consumed (String c s) (skip is_word s);
            g_start := consumed (skip is_colon (skip is_word s)) r3;
            g_end := consumed r3 r4 |})).
      f_equal. f_equal.
      * rewrite <- (run_skip is_word s) at 1.
        rewrite <- append_cons. apply consumed_app.
      * apply consumed_groups.
      * apply consumed_run.
    + intros r. rewrite (Hgrp (fun r3 r4 =>
         {| g_ref_name := consumed (String c s) (skip is_word s);
            g_start := consumed r r3;
            g_end := consumed r3 r4 |})). eauto.
  - intros r. rewrite re_star_total.
    + rewrite (Hgrp (fun r3 r4 =>
         {| g_ref_name := consumed (String c s) r;
            g_start := consumed (skip is_colon r) r3;
            g_end := consumed r3 r4 |})). eauto.
    + intros r'. rewrite (Hgrp (fun r3 r4 =>
         {| g_ref_name := consumed (String c s) r;
            g_start := consumed r' r3;
            g_end := consumed r3 r4 |})). eauto.
Qed.

(** ** Scans of composed strings *)

Lemma all_of_app cls s t :
  all_of cls (s ++ t) = all_of cls s && all_of cls t.
Proof.
  induction s as [|c s IH]; [done|].
  rewrite append_cons. simpl. rewrite IH. by destruct (cls c).
Qed.

Lemma all_of_weaken (cls cls' : ascii -> bool) s :
  (forall c, cls c = true -> cls' c = true) ->
  all_of cls s = true -> all_of cls' s = true.
Proof.
  intros Hc. induction s as [|c s IH]; simpl; [done|].
  intros [H1 H2]%andb_prop. rewrite (Hc _ H1). simpl. auto.
Qed.

Lemma all_of_run cls s : all_of cls (run cls s) = true.
Proof.
  induction s as [|c s IH]; simpl; [done|].
  destruct (cls c) eqn:Hc; simpl; [|done]. by rewrite Hc.
Qed.

Lemma skip_not_starts cls s : starts_with cls (skip cls s) = false.
Proof.
  induction s as [|c s IH]; simpl; [done|].
  destruct (cls c) eqn:Hc; simpl; [done|]. exact Hc.
Qed.

Lemma run_app cls p r :
  all_of cls p = true -> starts_with cls r = false -> run cls (p ++ r) = p.
Proof.
  intros Hp Hr. induction p as [|c p IH].
  - rewrite append_empty_l. destruct r as [|c r]; simpl in *; [done|].
    by rewrite Hr.
  - rewrite append_cons. simpl in *. apply andb_prop in Hp as [-> Hp].
    by rewrite IH.
Qed.

Lemma skip_app cls p r :
  all_of cls p = true -> starts_with cls r = false -> skip cls (p ++ r) = r.
Proof.
  intros Hp Hr. induction p as [|c p IH].
  - rewrite append_empty_l. destruct r as [|c r]; simpl in *; [done|].
    by rewrite Hr.
  - rewrite append_cons. simpl in *. apply andb_prop in Hp as [-> Hp]. auto.
Qed.

Lemma skip_none cls s : starts_with cls s = false -> skip cls s = s.
Proof. destruct s as [|c s]; simpl; [done|]. by intros ->. Qed.

Lemma run_none cls s : starts_with cls s = false -> run cls s = "".
Proof. destruct s as [|c s]; simpl; [done|]. by intros ->. Qed.

Lemma starts_with_app cls p r :
  nonempty p = true -> starts_with cls (p ++ r) = starts_with cls p.
Proof. by destruct p. Qed.

Lemma starts_with_all cls p :
  nonempty p = true -> all_of cls p = true -> starts_with cls p = true.
Proof. destruct p as [|c p]; simpl; [done|]. by intros _ [-> _]%andb_prop. Qed.

Lemma nonempty_run cls s : nonempty (run cls s) = starts_with cls s.
Proof. destruct s as [|c s]; simpl; [done|]. by destruct (cls c). Qed.

(** No group starts at a string of digits only, or at a non-digit. *)
Lemma skip_groups_digits fuel e :
  all_of is_digit e = true -> skip_groups fuel e = e.
Proof.
  intros He. destruct fuel as [|fuel]; simpl; [done|].
  destruct (starts_with is_digit e); [|done].
  rewrite <- (append_empty_r e) at 1. by rewrite skip_app.
Qed.

Lemma run_groups_digits fuel e :
  all_of is_digit e = true -> run_groups fuel e = "".
Proof.
  intros He. destruct fuel as [|fuel]; simpl; [done|].
  destruct (starts_with is_digit e); [|done].
  rewrite <- (append_empty_r e) at 1. by rewrite skip_app.
Qed.

Lemma skip_groups_none fuel s :
  starts_with is_digit s = false -> skip_groups fuel s = s.
Proof. intros Hs. destruct fuel; simpl; [done|]. by rewrite Hs. Qed.

Lemma run_groups_none fuel s :
  starts_with is_digit s = false -> run_groups fuel s = "".
Proof. intros Hs. destruct fuel; simpl; [done|]. by rewrite Hs. Qed.

(** One group in front: it is taken, and the scan goes on behind it. *)
Lemma skip_groups_cons fuel d r :
  nonempty d = true -> all_of is_digit d = true ->
  skip_groups (S fuel) (d ++ String "-" r) = skip_groups fuel r.
Proof.
  intros Hn Hd. simpl.
  rewrite starts_with_app, starts_with_all by done.
  by rewrite skip_app.
Qed.

Lemma run_groups_cons fuel d r :
  nonempty d = true -> all_of is_digit d = true ->
  run_groups (S fuel) (d ++ String "-" r)
  = (d ++ String "-" (run_groups fuel r))%string.
Proof.
  intros Hn Hd. simpl.
  rewrite starts_with_app, starts_with_all by done.
  rewrite skip_app by done. simpl. by rewrite run_app.
Qed.

(** What the groups captured is made of digits and dashes, and of digits
    once the dashes are removed. *)
Lemma remove_dashes_app s t :
  remove_dashes (s ++ t) = (remove_dashes s ++ remove_dashes t)%string.
Proof.
  induction s as [|c s IH]; [done|].
  rewrite append_cons. simpl. destruct (is_dash c); [done|].
  by rewrite append_cons, IH.
Qed.

Lemma remove_dashes_digits s :
  all_of is_digit s = true -> remove_dashes s = s.
Proof.
  induction s as [|c s IH]; simpl; [done|].
  intros [Hc Hs]%andb_prop. unfold is_dash. rewrite (digit_not_dash _ Hc).
  by rewrite IH.
Qed.

Lemma run_groups_digits_only fuel s :
  all_of is_digit (remove_dashes (run_groups fuel s)) = true.
Proof.
  revert s. induction fuel as [|fuel IH]; intros s; simpl; [done|].
  destruct (starts_with is_digit s); [|done].
  destruct (skip is_digit s) as [|d r]; [done|].
  destruct (is_dash d) eqn:Hd; [|done].
  rewrite remove_dashes_app, all_of_app. simpl. rewrite Hd, IH.
  by rewrite remove_dashes_digits, all_of_run by apply all_of_run.
Qed.

(** ** The result monad on lists *)

Lemma bind_Ok {A B} (f : A -> result B) a : (Ok a ≫= f) = f a.
Proof. reflexivity. Qed.

Lemma bind_Raise {A B} (f : A -> result B) e : (Raise e ≫= f) = Raise e.
Proof. reflexivity. Qed.

Lemma mapM_singleton {A B} (f : A -> result B) x :
  mapM f [x] = (y ← f x; Ok [y]).
Proof. simpl. by destruct (f x). Qed.



(** ** [int] on runs of digits, and [str] *)

Lemma digit_value_nonneg c : is_digit c = true -> 0 <= digit_value c <= 9.
Proof.
  unfold is_digit, digit_value. intros [H1 H2]%andb_prop.
  apply N.leb_le in H1, H2. lia.
Qed.

Lemma decimal_value_app acc s t :
  decimal_value acc (s ++ t)
  = match decimal_value acc s with
    | Some v => decimal_value v t
    | None => None
    end.
Proof.
  revert acc. induction s as [|c s IH]; intros acc; [done|].
  rewrite append_cons. simpl. destruct (is_digit c); [apply IH | done].
Qed.

Lemma decimal_value_digits acc s :
  all_of is_digit s = true -> 0 <= acc ->
  exists v, decimal_value acc s = Some v /\ 0 <= v.
Proof.
  revert acc. induction s as [|c s IH]; intros acc; simpl.
  - eauto.
  - intros [Hc Hs]%andb_prop Hacc. rewrite Hc. apply IH; [done|].
    pose proof (digit_value_nonneg c Hc). lia.
Qed.

Lemma too_long_empty : too_long "" = false.
Proof. reflexivity. Qed.

Lemma too_long_length s t :
  (String.length s <= String.length t)%nat -> too_long t = false ->
  too_long s = false.
Proof. unfold too_long. rewrite !Z.ltb_ge. lia. Qed.

Lemma int_or_none_digits s :
  all_of is_digit s = true ->
  exists v, decimal_value 0 s = Some v /\ 0 <= v
            /\ int_or_none s
               = if too_long s then Raise ValueError
                 else Ok (if nonempty s then Some v else None).
Proof.
  intros Hs. destruct (decimal_value_digits 0 s Hs) as (v & Hv & Hpos); [lia|].
  exists v. split; [done|]. split; [done|].
  destruct s as [|c s]; [done|].
  unfold int_or_none, py_int. destruct (too_long _); [done|]. by rewrite Hv.
Qed.

Lemma digit_char_digit d :
  0 <= d < 10 -> is_digit (digit_char d) = true /\ digit_value (digit_char d) = d.
Proof.
  intros Hd.
  assert (d = 0 \/ d = 1 \/ d = 2 \/ d = 3 \/ d = 4 \/ d = 5 \/ d = 6
          \/ d = 7 \/ d = 8 \/ d = 9) as Hcases by lia.
  repeat (destruct Hcases as [->|Hcases]; [by vm_compute|]).
  subst d. by vm_compute.
Qed.

Lemma decimal_digits_value fuel n :
  (0 < fuel)%nat -> 0 <= n < 2 ^ Z.of_nat fuel ->
  nonempty (decimal_digits fuel n) = true
  /\ all_of is_digit (decimal_digits fuel n) = true
  /\ decimal_value 0 (decimal_digits fuel n) = Some n.
Proof.
  revert n. induction fuel as [|fuel IH]; intros n Hfuel Hn; [lia|].
  simpl decimal_digits. destruct (n <? 10) eqn:Hlt.
  - apply Z.ltb_lt in Hlt. destruct (digit_char_digit n) as [Hd Hv]; [lia|].
    simpl. rewrite Hd, Hv. repeat split; done.
  - apply Z.ltb_ge in Hlt.
    assert (0 <= n / 10 < 2 ^ Z.of_nat fuel) as Hq.
    { split; [apply Z.div_pos; lia|].
      apply Z.div_lt_upper_bound; [lia|].
      rewrite Nat2Z.inj_succ, Z.pow_succ_r in Hn by lia. lia. }
    assert (0 < fuel)%nat as Hf.
    { destruct fuel; [|lia]. simpl in Hq.
      assert (1 <= n / 10) by (apply Z.div_le_lower_bound; lia). lia. }
    destruct (IH (n / 10) Hf Hq) as (Hne & Hall & Hval).
    destruct (digit_char_digit (n mod 10)) as [Hd Hv].
    { apply Z.mod_pos_bound. lia. }
    split; [by destruct (decimal_digits fuel (n / 10))|].
    split.
    + rewrite all_of_app, Hall. simpl. by rewrite Hd.
    + rewrite decimal_value_app, Hval. simpl. rewrite Hd, Hv.
      f_equal. pose proof (Z.div_mod n 10). lia.
Qed.

Lemma py_str_value n :
  0 <= n ->
  nonempty (py_str n) = true
  /\ all_of is_digit (py_str n) = true
  /\ decimal_value 0 (py_str n) = Some n.
Proof.
  intros Hn. unfold py_str.
  destruct (n <? 0) eqn:Hneg; [apply Z.ltb_lt in Hneg; lia|].
  apply decimal_digits_value; [lia|].
  split; [done|].
  rewrite Nat2Z.inj_succ, Z2Nat.id by apply Z.log2_nonneg.
  destruct (Z.eq_dec n 0) as [->|Hnz]; [done|].
  apply Z.log2_spec. lia.
Qed.

(** ** [parse_regions], one string at a time *)

Lemma parse_region_unmatched L s :
  starts_with is_word s = false -> parse_region L s = Raise AttributeError.
Proof.
  intros Hs. unfold parse_region. by rewrite region_decoder_scan, Hs.
Qed.

(** A string that begins with a word character is matched; the exceptions
    left are the [ValueError] of [int] on too many digits, for the start and
    then for the end, and the failed lookup of the name. *)
Lemma parse_region_matched L s :
  starts_with is_word s = true ->
  let name := run is_word s in
  let r2 := skip is_colon (skip is_word s) in
  let r3 := skip_groups (String.length r2) r2 in
  exists sv ev,
    decimal_value 0 (remove_dashes (run_groups (String.length r2) r2)) = Some sv
    /\ 0 <= sv
    /\ decimal_value 0 (run is_digit r3) = Some ev /\ 0 <= ev
    /\ parse_region L s =
       if too_long (remove_dashes (run_groups (String.length r2) r2))
          || too_long (run is_digit r3)
       then Raise ValueError
       else if nonempty (run is_digit r3)
       then Ok {| ref_name := name; start := sv; end_ := Some ev |}
       else match L with
            | None => Ok {| ref_name := name; start := sv; end_ := None |}
            | Some lengths =>
                match lengths !! name with
                | Some len => Ok {| ref_name := name; start := sv; end_ := Some len |}
                | None => Raise (KeyError name)
                end
            end.
Proof.
  intros Hs name r2 r3.
  destruct (int_or_none_digits _ (run_groups_digits_only (String.length r2) r2))
    as (sv & Hsv & Hsv0 & Hsi).
  destruct (int_or_none_digits _ (all_of_run is_digit r3))
    as (ev & Hev & Hev0 & Hei).
  exists sv, ev. repeat (split; [done|]).
  unfold parse_region. rewrite region_decoder_scan, Hs.
  unfold mbind, result_bind. cbv beta iota zeta.
  cbn [g_start g_end g_ref_name]. fold r2. fold r3. fold name.
  rewrite Hsi, Hei.
  destruct (too_long (remove_dashes _)); [done|].
  destruct (too_long (run is_digit r3)); [done|].
  cbv beta iota. cbn [orb].
  assert (match (if nonempty (remove_dashes (run_groups (String.length r2) r2))
                 then Some sv else None) with
          | Some v => v
          | None => 0
          end = sv) as ->.
  { destruct (remove_dashes (run_groups (String.length r2) r2)); simpl in *;
      [congruence | done]. }
  destruct (nonempty (run is_digit r3)); [done|].
  destruct L as [lengths|]; [|done].
  by destruct (lengths !! name).
Qed.


(** [parse_regions] on one string fails exactly with the string's fault. *)
Lemma parse_region_fault L s :
  match region_fault L s with
  | Some e => parse_region L s = Raise e
  | None => exists r, parse_region L s = Ok r
  end.
Proof.
  unfold region_fault. destruct (starts_with is_word s) eqn:Hs.
  - destruct (parse_region_matched L s Hs) as (sv & ev & _ & _ & _ & _ & ->).
    rewrite region_decoder_scan, Hs. cbv zeta. cbn [g_start g_end g_ref_name].
    destruct (too_long _ || too_long _); [done|].
    destruct (nonempty _); [by eauto|].
    destruct L as [lengths|]; [|by eauto].
    destruct (lengths !! _); by eauto.
  - rewrite parse_region_unmatched by done. by rewrite region_decoder_scan, Hs.
Qed.

(** The decoder on a name followed by something that is not a word
    character. *)
Lemma decode_name name rest :
  nonempty name = true -> all_of is_word name = true ->
  starts_with is_word rest = false ->
  starts_with is_word (name ++ rest) = true
  /\ run is_word (name ++ rest) = name
  /\ skip is_word (name ++ rest) = rest.
Proof.
  intros Hn Hw Hr.
  rewrite starts_with_app, starts_with_all, run_app, skip_app by done. done.
Qed.

(** ** Region strings with groups *)

Lemma digit_not_colon c : is_digit c = true -> is_colon c = false.
Proof. destruct c as [[] [] [] [] [] [] [] []]; vm_compute; congruence. Qed.

Lemma colon_not_word c : is_colon c = true -> is_word c = false.
Proof. destruct c as [[] [] [] [] [] [] [] []]; vm_compute; congruence. Qed.

Lemma with_groups_length ds e :
  Forall digit_run ds -> (length ds <= String.length (with_groups ds e))%nat.
Proof.
  induction 1 as [|d ds _ _ IH]; simpl; [lia|].
  rewrite length_append. simpl. lia.
Qed.

Lemma with_groups_no_colon ds e :
  Forall digit_run ds -> all_of is_digit e = true ->
  starts_with is_colon (with_groups ds e) = false.
Proof.
  intros Hds He. destruct Hds as [|d ds [Hn Hd] _]; simpl.
  - destruct e as [|c e]; simpl in *; [done|].
    apply andb_prop in He as [Hc _]. by apply digit_not_colon.
  - destruct d as [|c d]; simpl in *; [done|].
    apply andb_prop in Hd as [Hc _]. by apply digit_not_colon.
Qed.

(** The groups of [with_groups ds e] are all taken, and the scan stops at
    [e]. *)
Lemma groups_scan fuel ds e :
  (length ds <= fuel)%nat -> Forall digit_run ds -> all_of is_digit e = true ->
  skip_groups fuel (with_groups ds e) = e
  /\ remove_dashes (run_groups fuel (with_groups ds e)) = concat_digits ds.
Proof.
  intros Hfuel Hds He. revert fuel Hfuel.
  induction Hds as [|d ds [Hn Hd] _ IH]; intros fuel Hfuel; simpl.
  - by rewrite skip_groups_digits, run_groups_digits.
  - destruct fuel as [|fuel]; [simpl in Hfuel; lia|].
    rewrite skip_groups_cons, run_groups_cons by done.
    destruct (IH fuel) as [-> IHr]; [simpl in Hfuel; lia|].
    split; [done|].
    rewrite remove_dashes_app. simpl.
    by rewrite remove_dashes_digits, IHr.
Qed.

Lemma concat_digits_all ds :
  Forall digit_run ds -> all_of is_digit (concat_digits ds) = true.
Proof.
  induction 1 as [|d ds [_ Hd] _ IH]; simpl; [done|].
  by rewrite all_of_app, Hd, IH.
Qed.

(** [parse_regions] on a name, colons and a position made of groups and a
    final run of digits. *)
Lemma parse_region_position L name colons ds e :
  nonempty name = true -> all_of is_word name = true ->
  all_of is_colon colons = true ->
  starts_with is_word (colons ++ with_groups ds e) = false ->
  Forall digit_run ds -> all_of is_digit e = true ->
  exists sv ev,
    decimal_value 0 (concat_digits ds) = Some sv /\ 0 <= sv
    /\ decimal_value 0 e = Some ev /\ 0 <= ev
    /\ parse_region L (name ++ colons ++ with_groups ds e) =
       if too_long (concat_digits ds) || too_long e then Raise ValueError
       else if nonempty e
       then Ok {| ref_name := name; start := sv; end_ := Some ev |}
       else match L with
            | None => Ok {| ref_name := name; start := sv; end_ := None |}
            | Some lengths =>
                match lengths !! name with
                | Some len => Ok {| ref_name := name; start := sv; end_ := Some len |}
                | None => Raise (KeyError name)
                end
            end.
Proof.
  intros Hn Hw Hc Hrest Hds He.
  destruct (decode_name name _ Hn Hw Hrest) as (Hs & Hrun & Hskip).
  destruct (parse_region_matched L _ Hs) as (sv & ev & Hsv & Hsv0 & Hev & Hev0 & Hp).
  rewrite Hrun, Hskip in *.
  rewrite skip_app in * by (done || by apply with_groups_no_colon).
  destruct (groups_scan (String.length (with_groups ds e)) ds e) as [Hsk Hrg];
    [by apply with_groups_length | done | done |].
  rewrite Hsk, Hrg in *.
  assert (run is_digit e = e) as Hre.
  { rewrite <- (append_empty_r e) at 1. by apply run_app. }
  rewrite Hre in *. exists sv, ev. done.
Qed.

Lemma mapM_Raise_inv {A B} (f : A -> result B) l e :
  mapM f l = Raise e -> exists x, x ∈ l /\ f x = Raise e.
Proof.
  induction l as [|x l IH]; simpl; [discriminate|].
  destruct (f x) as [y|e'] eqn:Hfx; simpl.
  - destruct (mapM f l) as [ys|e'] eqn:Hl; simpl; [discriminate|].
    intros [= ->]. destruct IH as (z & Hz & Hfz); [done|].
    exists z. split; [by right | done].
  - intros [= ->]. exists x. split; [by left | done].
Qed.

Lemma parse_regions_singleton L s :
  parse_regions [s] L = (r ← parse_region L s; Ok [r]).
Proof. apply mapM_singleton. Qed.

(** ** Malformed region strings (C3) *)




(** ** The end defaulted from the reference lengths (C6) *)

(** C6, counterexample. A string with no end and a start of 4301 digits:
    its name is in the map of reference lengths, and [parse_regions] raises
    all the same, with the [ValueError] of [int], not with [KeyError]. *)
Lemma parse_regions_default_end_long_start :
  (exists d, _region_decoder_ ("Ecoli:" ++ ones 4301 ++ "-") = Some d
             /\ g_end d = "" /\ g_ref_name d = "Ecoli")
  /\ ({[ "Ecoli" := 4800000 ]} : gmap string Z) !! "Ecoli" = Some 4800000
  /\ parse_regions [("Ecoli:" ++ ones 4301 ++ "-")%string]
       (Some {[ "Ecoli" := 4800000 ]})
     = Raise ValueError
  /\ parse_regions [("Ecoli:" ++ ones 4301 ++ "-")%string] (Some ∅)
     = Raise ValueError.
Proof.
  split; [|split; [|split]].
  - eexists. split; [vm_compute; reflexivity|]. split; reflexivity.
  - reflexivity.
  - vm_compute. reflexivity.
  - vm_compute. reflexivity.
Qed.

(** C6, as amended. When the decoded end of a region string is absent, its
    start has no more digits than [int] takes, and a map of reference
    lengths is given, the Region's end is the map's entry for the reference
    name, and [parse_regions] raises, with [KeyError], if and only if the
    name is not in the map. *)
Theorem parse_regions_default_end
        (s : string) (d : groupdict) (lengths : gmap string Z) :
  _region_decoder_ s = Some d ->
  g_end d = "" ->
  too_long (remove_dashes (g_start d)) = false ->
  (exists sv,
      parse_regions [s] (Some lengths) =
      match lengths !! g_ref_name d with
      | Some len =>
          Ok [ {| ref_name := g_ref_name d; start := sv; end_ := Some len |} ]
      | None => Raise (KeyError (g_ref_name d))
      end)
  /\ (raises (parse_regions [s] (Some lengths))
      <-> lengths !! g_ref_name d = None).
Proof.
  intros Hd Hend Hstart. rewrite region_decoder_scan in Hd.
  destruct (starts_with is_word s) eqn:Hw; [|discriminate].
  destruct (parse_region_matched (Some lengths) s Hw)
    as (sv & ev & _ & _ & _ & _ & Hp).
  cbv zeta in Hd. injection Hd as <-. cbn [g_start g_end g_ref_name] in *.
  rewrite Hend, Hstart in Hp. cbn [nonempty orb] in Hp.
  rewrite too_long_empty in Hp.
  rewrite parse_regions_singleton, Hp.
  split.
  - exists sv. by destruct (lengths !! run is_word s).
  - destruct (lengths !! run is_word s); simpl.
    + split; [intros [e He]; discriminate | discriminate].
    + split; [done | by eexists].
Qed.

Lemma parse_regions_default_end_witness :
  (exists sv,
      parse_regions ["Ecoli"] (Some {[ "Ecoli" := 4800000 ]}) =
      Ok [ {| ref_name := "Ecoli"; start := sv; end_ := Some 4800000 |} ])
  /\ (raises (parse_regions ["Ecoli"] (Some {[ "Ecoli" := 4800000 ]}))
      <-> ({[ "Ecoli" := 4800000 ]} : gmap string Z) !! "Ecoli" = None).
Proof.
  exact (parse_regions_default_end "Ecoli"
           {| g_ref_name := "Ecoli"; g_start := ""; g_end := "" |}
           {[ "Ecoli" := 4800000 ]} eq_refl eq_refl eq_refl).
Defined.

(** ** Several groups in front of the end (C10) *)

(** C10, counterexample. Two groups of 2200 digits each in front of the
    end: each is a number that [int] takes, their digits together are not,
    and [parse_regions] raises [ValueError]. *)
Lemma parse_regions_groups_too_long :
  Forall digit_run [ones 2200; ones 2200]
  /\ digit_run "3"
  /\ too_long (ones 2200) = false
  /\ parse_regions
       [("Ecoli" ++ ":" ++ with_groups [ones 2200; ones 2200] "3")%string]
       None
     = Raise ValueError.
Proof.
  split; [|split; [|split]].
  - repeat constructor; vm_compute; reflexivity.
  - split; reflexivity.
  - vm_compute. reflexivity.
  - vm_compute. reflexivity.
Qed.

(** C10, as amended. A region string with any number of groups of digits
    and a dash, in particular two or more, in front of a final run of
    digits is decoded without an exception, provided that the digits of all
    the groups together, and those of the final run, are no more than [int]
    takes: the start is the number written by the digits of all the groups
    one after the other, and the end is the number of the final run. *)
Theorem parse_regions_groups_concatenated
        (L : option (gmap string Z)) (name : string) (ds : list string)
        (e : string) :
  nonempty name = true -> all_of is_word name = true ->
  Forall digit_run ds -> digit_run e ->
  too_long (concat_digits ds) = false -> too_long e = false ->
  exists sv ev,
    decimal_value 0 (concat_digits ds) = Some sv
    /\ decimal_value 0 e = Some ev
    /\ parse_regions [(name ++ ":" ++ with_groups ds e)%string] L
       = Ok [ {| ref_name := name; start := sv; end_ := Some ev |} ].
Proof.
  intros Hn Hw Hds [Hen He] Hts Hte.
  destruct (parse_region_position L name ":" ds e)
    as (sv & ev & Hsv & _ & Hev & _ & Hp); try done.
  exists sv, ev. rewrite parse_regions_singleton, Hp, Hts, Hte, Hen. done.
Qed.

Lemma parse_regions_groups_concatenated_witness :
  parse_regions ["Ecoli:100-200-300"] None
  = Ok [ {| ref_name := "Ecoli"; start := 100200; end_ := Some 300 |} ].
Proof.
  destruct (parse_regions_groups_concatenated None "Ecoli" ["100"; "200"] "300")
    as (sv & ev & Hsv & Hev & Hp).
  - reflexivity.
  - reflexivity.
  - repeat constructor.
  - split; reflexivity.
  - reflexivity.
  - reflexivity.
  - vm_compute in Hsv, Hev. injection Hsv as <-. injection Hev as <-.
    exact Hp.
Defined.

(** ** Serialising and parsing again (C7) *)

Ltac unfold_groups H1 H2 :=
  unfold with_groups, concat_digits in H1, H2; cbn [foldr] in H1, H2;
  repeat rewrite append_empty_l in H1; repeat rewrite append_empty_r in H1;
  repeat rewrite append_empty_l in H2; repeat rewrite append_empty_r in H2;
  cbn [nonempty decimal_value] in H1, H2.

Lemma decimal_value_bound acc s v :
  0 <= acc -> decimal_value acc s = Some v ->
  v < (acc + 1) * 10 ^ Z.of_nat (String.length s).
Proof.
  revert acc. induction s as [|c s IH]; intros acc Hacc; simpl decimal_value.
  - intros [= <-]. simpl. lia.
  - destruct (is_digit c) eqn:Hc; [|done]. intros Hv.
    pose proof (digit_value_nonneg c Hc) as Hd.
    apply IH in Hv; [|lia].
    cbn [String.length]. rewrite Nat2Z.inj_succ, Z.pow_succ_r by lia.
    assert (0 < 10 ^ Z.of_nat (String.length s)) by (apply Z.pow_pos_nonneg; lia).
    nia.
Qed.

Lemma decimal_digits_length fuel n k :
  0 <= n < 10 ^ k -> 1 <= k ->
  Z.of_nat (String.length (decimal_digits fuel n)) <= k.
Proof.
  revert n k. induction fuel as [|fuel IH]; intros n k Hn Hk; simpl.
  - lia.
  - destruct (Z.ltb_spec n 10) as [Hlt|Hge]; [simpl; lia|].
    rewrite length_append. cbn [String.length].
    assert (2 <= k) as Hk2.
    { destruct (Z.eq_dec k 1) as [->|?]; [|lia]. simpl in Hn. lia. }
    assert (0 <= n / 10 < 10 ^ (k - 1)) as Hq.
    { split; [apply Z.div_pos; lia|].
      apply Z.div_lt_upper_bound; [lia|].
      rewrite <- Z.pow_succ_r by lia.
      replace (Z.succ (k - 1)) with k by lia. lia. }
    specialize (IH (n / 10) (k - 1) Hq). lia.
Qed.

(** A number read from a run of digits is not written with more digits. *)
Lemma too_long_py_str s v :
  decimal_value 0 s = Some v -> 0 <= v -> too_long s = false ->
  too_long (py_str v) = false.
Proof.
  intros Hv Hpos Hs. unfold too_long in *. apply Z.ltb_ge in Hs.
  apply Z.ltb_ge. unfold py_str.
  destruct (Z.ltb_spec v 0) as [?|_]; [lia|].
  destruct s as [|c s].
  - injection Hv as <-. vm_compute. discriminate.
  - apply decimal_value_bound in Hv; [|lia].
    etrans; [|exact Hs]. apply decimal_digits_length; [lia|].
    cbn [String.length]. lia.
Qed.

Lemma parse_region_serialized explicit_start name sv e :
  nonempty name = true -> all_of is_word name = true ->
  0 <= sv -> too_long (py_str sv) = false ->
  (forall ev, e = Some ev -> 0 <= ev /\ too_long (py_str ev) = false) ->
  parse_region None
    (serialize_region explicit_start {| ref_name := name; start := sv; end_ := e |})
  = Ok {| ref_name := name; start := sv; end_ := e |}.
Proof.
  intros Hn Hw Hsv Hts He. unfold serialize_region. cbn [ref_name start end_].
  destruct (py_str_value sv Hsv) as (Hsn & Hsd & Hsval).
  destruct e as [ev|].
  - destruct (He ev eq_refl) as [Hev Hte].
    destruct (py_str_value ev Hev) as (Hen & Hed & Heval).
    destruct ((sv =? 0) && negb explicit_start) eqn:Homit.
    + apply andb_prop in Homit as [->%Z.eqb_eq _].
      destruct (parse_region_position None name ":" [] (py_str ev))
        as (sv' & ev' & Hsv' & _ & Hev' & _ & Hp); try done.
      unfold_groups Hsv' Hp. rewrite too_long_empty, Hte, Hen in Hp.
      cbn [orb] in Hp. congruence.
    + destruct (parse_region_position None name ":" [py_str sv] (py_str ev))
        as (sv' & ev' & Hsv' & _ & Hev' & _ & Hp); try done.
      { by repeat constructor. }
      unfold_groups Hsv' Hp. rewrite Hts, Hte, Hen in Hp. cbn [orb] in Hp.
      change ("-" ++ py_str ev)%string with (String "-" (py_str ev)).
      congruence.
  - destruct ((sv =? 0) && negb explicit_start) eqn:Homit.
    + apply andb_prop in Homit as [->%Z.eqb_eq _].
      destruct (parse_region_position None name "" [] "")
        as (sv' & ev' & Hsv' & _ & Hev' & _ & Hp); try done.
      unfold_groups Hsv' Hp. rewrite too_long_empty in Hp. cbn [orb] in Hp.
      rewrite append_empty_r. congruence.
    + destruct (parse_region_position None name ":" [py_str sv] "")
        as (sv' & ev' & Hsv' & _ & Hev' & _ & Hp); try done.
      { by repeat constructor. }
      unfold_groups Hsv' Hp. rewrite Hts, too_long_empty in Hp.
      cbn [orb] in Hp. congruence.
Qed.

(** The Region of an accepted string: a name of word characters, a start
    and an end that are not negative and are written with no more digits
    than [int] takes. *)
Lemma parse_region_wellformed (s : string) (r : Region) :
  parse_region None s = Ok r ->
  nonempty (ref_name r) = true /\ all_of is_word (ref_name r) = true
  /\ 0 <= start r /\ too_long (py_str (start r)) = false
  /\ (forall ev, end_ r = Some ev -> 0 <= ev /\ too_long (py_str ev) = false).
Proof.
  intros Hr. destruct (starts_with is_word s) eqn:Hname.
  2:{ by rewrite parse_region_unmatched in Hr. }
  destruct (parse_region_matched None s Hname)
    as (sv & ev & Hsv & Hsv0 & Hev & Hev0 & Hp).
  cbv zeta in *. rewrite Hp in Hr.
  destruct (too_long (remove_dashes _)) eqn:Hts; [done|].
  destruct (too_long (run is_digit _)) eqn:Hte; [done|].
  cbn [orb] in Hr.
  pose proof (too_long_py_str _ _ Hsv Hsv0 Hts) as Hs'.
  pose proof (too_long_py_str _ _ Hev Hev0 Hte) as He'.
  destruct (nonempty (run is_digit _)); injection Hr as <-;
    cbn [ref_name start end_]; rewrite nonempty_run, all_of_run;
    repeat (split; [done|]); [by intros ? [= <-] | done].
Qed.

(** Every string that [parse_regions] accepts, of the grammar or not, gives a
    Region that is parsed again from its serialisation. *)
Lemma parse_regions_roundtrip_accepted
      (s : string) (r : Region) (explicit_start : bool) :
  parse_regions [s] None = Ok [r] ->
  parse_regions [serialize_region explicit_start r] None = Ok [r].
Proof.
  rewrite !parse_regions_singleton.
  destruct (parse_region None s) as [r'|e] eqn:Hr; [|done].
  rewrite bind_Ok. intros [= ->].
  destruct (parse_region_wellformed s r Hr) as (Hn & Hw & Hs & Hts & He).
  destruct r as [name sv e]. by rewrite parse_region_serialized.
Qed.

(** C7, counterexample. ["Ecoli:"] followed by 4301 digits is a region
    string of the grammar, and [parse_regions] raises [ValueError] on it:
    there is no Region to write back. *)
Lemma parse_regions_grammar_string_too_long :
  spec_region_string ("Ecoli:" ++ ones 4301) = true
  /\ parse_regions [("Ecoli:" ++ ones 4301)%string] None = Raise ValueError.
Proof. split; vm_compute; reflexivity. Qed.

(** C7, as amended. Every region string of the grammar is matched. When
    neither the digits of its start nor those of its end are more than [int]
    takes, [parse_regions] returns a Region, and that Region written back in
    the grammar, with the default start left out or written out, is parsed
    to the same Region. Otherwise [parse_regions] raises [ValueError] and
    there is no Region. *)
Theorem parse_regions_roundtrip (s : string) (explicit_start : bool) :
  spec_region_string s = true ->
  exists d,
    _region_decoder_ s = Some d
    /\ if too_long (remove_dashes (g_start d)) || too_long (g_end d)
       then parse_regions [s] None = Raise ValueError
       else exists r,
           parse_regions [s] None = Ok [r]
           /\ parse_regions [serialize_region explicit_start r] None
              = Ok [r].
Proof.
  intros [Hname Hposition]%andb_prop. rewrite nonempty_run in Hname.
  pose proof (parse_region_fault None s) as Hf. unfold region_fault in Hf.
  rewrite region_decoder_scan, Hname in *. cbv zeta in *.
  eexists. split; [reflexivity|]. cbn [g_start g_end] in *.
  destruct (too_long _ || too_long _).
  - by rewrite parse_regions_singleton, Hf.
  - assert (exists r, parse_region None s = Ok r) as [r Hr]
      by (by destruct (nonempty _)).
    exists r.
    assert (parse_regions [s] None = Ok [r]) as Hs
      by (by rewrite parse_regions_singleton, Hr).
    split; [done|]. by apply (parse_regions_roundtrip_accepted s).
Qed.

Lemma parse_regions_roundtrip_witness :
  spec_region_string "Ecoli:1000-2000" = true
  /\ exists r,
      parse_regions ["Ecoli:1000-2000"] None = Ok [r]
      /\ parse_regions [serialize_region false r] None = Ok [r].
Proof.
  split; [reflexivity|].
  destruct (parse_regions_roundtrip "Ecoli:1000-2000" false eq_refl)
    as (d & Hd & Hr).
  vm_compute in Hd. injection Hd as <-. exact Hr.
Defined.

(** * Properties of [extract_long_reads] *)

(** ** Index arrays *)

Lemma existsb_eqb_elem_of (i : nat) (p : list nat) :
  existsb (Nat.eqb i) p = true <-> i ∈ p.
Proof.
  rewrite existsb_exists, list_elem_of_In. split.
  - intros (j & Hj & ->%Nat.eqb_eq). done.
  - intros Hi. exists i. split; [done | apply Nat.eqb_refl].
Qed.

Lemma index_array_perm n p : is_index_array n p = true -> seq 0 n ≡ₚ p.
Proof.
  intros [Hlen Hall]%andb_prop. apply Nat.eqb_eq in Hlen.
  apply submseteq_length_Permutation.
  - apply NoDup_submseteq; [apply NoDup_seq|].
    intros i Hi. apply existsb_eqb_elem_of.
    rewrite forallb_forall in Hall. apply Hall. by apply list_elem_of_In.
  - rewrite length_seq. lia.
Qed.

Lemma index_array_length n p : is_index_array n p = true -> length p = n.
Proof. intros [Hlen _]%andb_prop. by apply Nat.eqb_eq in Hlen. Qed.

Lemma index_array_elem n p i :
  is_index_array n p = true -> i ∈ p <-> (i < n)%nat.
Proof.
  intros Hp. rewrite <- (index_array_perm n p Hp), elem_of_seq. lia.
Qed.

Lemma index_array_NoDup n p : is_index_array n p = true -> NoDup p.
Proof.
  intros Hp. rewrite <- (index_array_perm n p Hp). apply NoDup_seq.
Qed.

Lemma index_array_nil p : is_index_array 0 p = true -> p = [].
Proof. intros Hp%index_array_length. by destruct p. Qed.

Lemma argsort_index_array a p :
  is_argsort a p = true -> is_index_array (length a) p = true.
Proof. by intros [? _]%andb_prop. Qed.

Lemma argpartition_index_array a k p :
  is_argpartition a k p = true -> is_index_array (length a) p = true.
Proof. by intros [[? _]%andb_prop _]%andb_prop. Qed.

(** ** The stable numpy keeps the contract on every array *)

Lemma insert_index_perm a i p : insert_index a i p ≡ₚ i :: p.
Proof.
  induction p as [|j p IH]; simpl; [done|].
  destruct (key a i <=? key a j); [done|].
  rewrite IH. apply Permutation_swap.
Qed.

Lemma stable_argsort_perm a : stable_argsort a ≡ₚ seq 0 (length a).
Proof.
  unfold stable_argsort. induction (seq 0 (length a)) as [|i l IH]; simpl; [done|].
  by rewrite insert_index_perm, IH.
Qed.

Lemma perm_index_array n p : p ≡ₚ seq 0 n -> is_index_array n p = true.
Proof.
  intros Hp. unfold is_index_array. apply andb_true_intro. split.
  - apply Nat.eqb_eq. by rewrite Hp, length_seq.
  - apply forallb_forall. intros i Hi%list_elem_of_In.
    apply existsb_eqb_elem_of. by rewrite Hp.
Qed.

Lemma ascending_cons a i j p :
  ascending a (i :: j :: p) = (key a i <=? key a j) && ascending a (j :: p).
Proof. reflexivity. Qed.

Lemma insert_index_ascending a i p :
  ascending a p = true -> ascending a (insert_index a i p) = true.
Proof.
  induction p as [|j p IH]; [done|].
  intros Hp. cbn [insert_index].
  destruct (Z.leb_spec (key a i) (key a j)) as [Hij|Hij].
  - rewrite ascending_cons, Hp.
    apply andb_true_intro. split; [by apply Z.leb_le | done].
  - destruct p as [|j' p].
    + cbn [insert_index]. rewrite ascending_cons.
      apply andb_true_intro. split; [apply Z.leb_le; lia | done].
    + rewrite ascending_cons in Hp. apply andb_prop in Hp as [Hjj' Hp].
      specialize (IH Hp). cbn [insert_index] in IH |- *.
      destruct (key a i <=? key a j') eqn:Hij'.
      * rewrite ascending_cons, IH.
        apply andb_true_intro. split; [apply Z.leb_le; lia | done].
      * by rewrite ascending_cons, Hjj', IH.
Qed.

Lemma stable_argsort_ascending a : ascending a (stable_argsort a) = true.
Proof.
  unfold stable_argsort. induction (seq 0 (length a)) as [|i l IH]; simpl; [done|].
  by apply insert_index_ascending.
Qed.

Lemma ascending_tail a x p : ascending a (x :: p) = true -> ascending a p = true.
Proof. destruct p as [|y p]; [done|]. cbn [ascending]. by intros [_ ?]%andb_prop. Qed.

Lemma ascending_head a x p y :
  ascending a (x :: p) = true -> y ∈ p -> key a x <= key a y.
Proof.
  revert x. induction p as [|z p IH]; intros x Hp Hy; [by apply elem_of_nil in Hy|].
  cbn [ascending] in Hp. apply andb_prop in Hp as [Hxz%Z.leb_le Hp].
  apply elem_of_cons in Hy as [->|Hy]; [done|].
  specialize (IH z Hp Hy). lia.
Qed.

Lemma ascending_take_drop a p k x y :
  ascending a p = true -> x ∈ take k p -> y ∈ drop k p ->
  key a x <= key a y.
Proof.
  revert k. induction p as [|z p IH]; intros k Hp Hx Hy.
  - rewrite take_nil in Hx. by apply elem_of_nil in Hx.
  - destruct k as [|k]; [by apply elem_of_nil in Hx|].
    cbn [take drop] in Hx, Hy. apply elem_of_cons in Hx as [->|Hx].
    + eapply ascending_head; [done|]. by apply (subseteq_drop k).
    + apply (IH k); [by apply ascending_tail in Hp | done | done].
Qed.

Lemma ascending_argpartition a p k :
  is_index_array (length a) p = true -> ascending a p = true ->
  (k < length a)%nat -> is_argpartition a k p = true.
Proof.
  intros Hidx Hp Hk. pose proof (index_array_length _ _ Hidx) as Hlen.
  destruct (lookup_lt_is_Some_2 p k) as [x Hx]; [lia|].
  unfold is_argpartition. rewrite Hidx, (nth_lookup_Some _ _ _ _ Hx).
  apply andb_true_intro. split; [apply andb_true_intro; split; [done|]|].
  - apply forallb_forall. intros i Hi%list_elem_of_In. apply Z.leb_le.
    apply (ascending_take_drop a p k); [done | done |].
    rewrite (drop_S _ _ _ Hx). by left.
  - apply forallb_forall. intros j Hj%list_elem_of_In. apply Z.leb_le.
    apply (ascending_take_drop a p (S k)); [done | | done].
    rewrite (take_S_r _ _ _ Hx). apply elem_of_app. right. by left.
Qed.

Lemma np_stable_contract a : numpy_contract np_stable a.
Proof.
  pose proof (perm_index_array _ _ (stable_argsort_perm a)) as Hidx.
  pose proof (stable_argsort_ascending a) as Hasc.
  split.
  - unfold is_argsort. cbn [argsort np_stable]. by rewrite Hidx, Hasc.
  - intros k [Hk| ->]; cbn [partition np_stable].
    + by apply ascending_argpartition.
    + by destruct k.
Qed.

(** ** Reading the ids at an index array *)

Lemma mapM_py_index `{!Inhabited A} (ids : list A) (p : list nat) :
  (forall i, i ∈ p -> (i < length ids)%nat) ->
  mapM (py_index ids) p = Ok ((fun i => ids !!! i) <$> p).
Proof.
  induction p as [|i p IH]; intros Hp; simpl; [done|].
  rewrite IH by (intros j Hj; apply Hp; by right).
  unfold py_index.
  rewrite (list_lookup_lookup_total_lt ids i) by (apply Hp; by left).
  done.
Qed.

Lemma fmap_lookup_total_seq `{!Inhabited A} (ids : list A) :
  (fun i => ids !!! i) <$> seq 0 (length ids) = ids.
Proof.
  apply list_eq. intros i. rewrite list_lookup_fmap.
  destruct (decide (i < length ids)%nat) as [Hi|Hi].
  - rewrite lookup_seq_lt by done. simpl.
    by rewrite list_lookup_lookup_total_lt.
  - rewrite lookup_seq_ge, lookup_ge_None_2 by lia. done.
Qed.

(** ** From the index array to the two outputs *)

Lemma extract_of_chosen np (rd : list (string * Z)) f others chosen :
  longest_indices np rd.*2 f = Ok chosen ->
  (forall i, i ∈ chosen -> (i < length rd)%nat) ->
  extract_long_reads np rd f others
  = Ok (ids_at rd.*1 chosen,
        if others
        then Some (ids_at rd.*1
                     (filter (fun i => i ∉ chosen) (seq 0 (length rd))))
        else None).
Proof.
  intros Hch Hrange. unfold extract_long_reads. rewrite Hch, bind_Ok.
  rewrite (mapM_py_index rd.*1 chosen), bind_Ok
    by (intros i Hi; rewrite length_fmap; auto).
  destruct others; [|done].
  rewrite mapM_py_index, length_fmap; [done|].
  intros i [_ Hi]%list_elem_of_filter. apply elem_of_seq in Hi. lia.
Qed.

Lemma elem_of_ids_at (ids : list string) p x :
  (forall i, i ∈ p -> (i < length ids)%nat) ->
  x ∈ ids_at ids p <-> exists i, i ∈ p /\ ids !! i = Some x.
Proof.
  intros Hp. unfold ids_at. rewrite list_elem_of_fmap. split.
  - intros (i & -> & Hi). exists i. split; [done|].
    apply list_lookup_lookup_total_lt. auto.
  - intros (i & Hi & Hx). exists i. split; [|done].
    symmetry. by apply list_lookup_total_correct.
Qed.

Lemma extract_raises np (rd : list (string * Z)) f others e :
  longest_indices np rd.*2 f = Raise e ->
  extract_long_reads np rd f others = Raise e.
Proof. intros H. unfold extract_long_reads. by rewrite H. Qed.

(** ** The loop over the bases *)

Lemma bases_loop_Ok lengths budget js i cumsum last :
  (forall j, j ∈ js -> (j < length lengths)%nat) ->
  exists last', bases_loop lengths budget js i cumsum last = Ok last'.
Proof.
  revert i cumsum last. induction js as [|j js IH]; intros i cumsum last Hjs.
  - by eexists.
  - simpl. destruct (lookup_lt_is_Some_2 lengths j) as [len Hlen];
      [apply Hjs; by left|].
    unfold py_index. rewrite Hlen, bind_Ok.
    destruct (budget <? wrap64 (cumsum + len)); [by eexists|].
    apply IH. intros j' Hj'. apply Hjs. by right.
Qed.

(** With [--bases] the index array is always produced, and holds indices of
    the input only. *)
Lemma longest_indices_bases np lengths budget :
  is_argsort lengths (argsort np lengths) = true ->
  exists last,
    longest_indices np lengths (bases budget)
    = Ok (take last (reverse (argsort np lengths)))
    /\ forall i, i ∈ take last (reverse (argsort np lengths)) ->
                 (i < length lengths)%nat.
Proof.
  intros Hp%argsort_index_array. simpl.
  destruct (bases_loop_Ok lengths budget (argsort np lengths) 1 0 1%nat)
    as [last Hlast].
  { intros j Hj. by apply (index_array_elem _ _ _ Hp). }
  exists last. rewrite Hlast, bind_Ok. split; [done|].
  intros i Hi. apply (index_array_elem _ _ _ Hp).
  apply elem_of_reverse. by apply (subseteq_take last).
Qed.

(** ** The partition position *)

(** With [--longest] the index array is the tail of the partition, when
    [max_reads] is computed and the partition position is accepted. *)
Lemma longest_indices_longest np lengths percent m part :
  max_reads (length lengths) percent = Ok m ->
  argpartition np lengths (- m) = Ok part ->
  longest_indices np lengths (longest percent)
  = Ok (py_slice_from part (- m)).
Proof. intros Hm Hpart. simpl. by rewrite Hm, bind_Ok, Hpart. Qed.

Lemma py_slice_from_subseteq {A} (l : list A) i : py_slice_from l i ⊆ l.
Proof. apply subseteq_drop. Qed.

Lemma py_slice_from_0 {A} (l : list A) : py_slice_from l 0 = l.
Proof. unfold py_slice_from. simpl (0 <? 0). by rewrite Z.min_l by lia. Qed.

Lemma py_slice_from_neg {A} (l : list A) (m : Z) :
  0 < m <= Z.of_nat (length l) ->
  py_slice_from l (- m) = drop (length l - Z.to_nat m) l.
Proof.
  intros Hm. unfold py_slice_from.
  destruct (Z.ltb_spec (- m) 0); [|lia].
  f_equal. lia.
Qed.

(** Which partition position is accepted. *)
Lemma argpartition_Ok np a kth :
  - 2^63 <= kth < 2^63 ->
  a = [] \/ - Z.of_nat (length a) <= kth < Z.of_nat (length a) ->
  exists k, ((k < length a)%nat \/ a = [])
            /\ (a <> [] -> Z.of_nat k = if kth <? 0 then kth + Z.of_nat (length a) else kth)
            /\ argpartition np a kth = Ok (partition np a k).
Proof.
  intros Hrange Hk. unfold argpartition.
  destruct ((kth <? - 2^63) || (2^64 <=? kth)) eqn:Hov.
  { apply orb_prop in Hov as [?%Z.ltb_lt|?%Z.leb_le]; lia. }
  destruct (Z.leb_spec (2^63) kth) as [?|_]; [lia|]. cbv zeta.
  set (k := if kth <? 0 then kth + Z.of_nat (length a) else kth).
  exists (Z.to_nat k).
  destruct a as [|x a].
  - split; [by right|]. split; [done|]. done.
  - destruct Hk as [?|Hk]; [done|].
    assert (0 <= k < Z.of_nat (length (x :: a))) as Hk'.
    { unfold k. destruct (kth <? 0) eqn:Hneg;
        [apply Z.ltb_lt in Hneg | apply Z.ltb_ge in Hneg]; lia. }
    split; [left; lia|]. split; [intros _; lia|].
    destruct (negb _ && _) eqn:Hb; [|done].
    apply andb_prop in Hb as [_ [?%Z.ltb_lt|?%Z.leb_le]%orb_prop]; lia.
Qed.

(** Which position is refused: one before the array or behind it, except
    that a position from [2^63] on is first wrapped around. *)
Lemma argpartition_raises np a kth :
  a <> [] -> Z.of_nat (length a) < 2^63 ->
  kth < - Z.of_nat (length a)
  \/ (Z.of_nat (length a) <= kth
      /\ ~ (2^64 - Z.of_nat (length a) <= kth < 2^64)) ->
  raises (argpartition np a kth).
Proof.
  intros Ha Hn Hk. unfold argpartition.
  destruct ((kth <? - 2^63) || (2^64 <=? kth)) eqn:Hov; [by eexists|].
  apply orb_false_iff in Hov as [Hlo%Z.ltb_ge Hhi%Z.leb_gt].
  assert ((Z.of_nat (length a) =? 0) = false) as ->.
  { apply Z.eqb_neq. destruct a; [done | simpl; lia]. }
  cbv zeta. cbn [negb andb].
  destruct (Z.leb_spec (2^63) kth) as [Hw|Hw].
  - destruct (Z.ltb_spec (kth - 2^64) 0) as [_|?]; [|lia].
    assert ((kth - 2^64 + Z.of_nat (length a) <? 0) = true) as ->
      by (apply Z.ltb_lt; lia).
    by eexists.
  - destruct (Z.ltb_spec kth 0) as [Hneg|Hneg].
    + assert ((kth + Z.of_nat (length a) <? 0) = true) as ->
        by (apply Z.ltb_lt; lia).
      by eexists.
    + assert ((Z.of_nat (length a) <=? kth) = true) as ->
        by (apply Z.leb_le; lia).
      rewrite orb_true_r. by eexists.
Qed.

(** A position from [2^64 - n] to [2^64 - 1] wraps around to one of the
    last [n] positions, and is accepted. *)
Lemma argpartition_wrapped np a kth :
  Z.of_nat (length a) < 2^63 ->
  2^64 - Z.of_nat (length a) <= kth < 2^64 ->
  exists k, (k < length a)%nat /\ argpartition np a kth = Ok (partition np a k).
Proof.
  intros Hn Hk. unfold argpartition.
  destruct (Z.ltb_spec kth (- 2^63)) as [?|_]; [lia|].
  destruct (Z.leb_spec (2^64) kth) as [?|_]; [lia|]. cbn [orb].
  destruct (Z.leb_spec (2^63) kth) as [_|?]; [|lia]. cbv zeta.
  destruct (Z.ltb_spec (kth - 2^64) 0) as [_|?]; [|lia].
  destruct (Z.ltb_spec (kth - 2^64 + Z.of_nat (length a)) 0) as [?|_]; [lia|].
  destruct (Z.leb_spec (Z.of_nat (length a))
              (kth - 2^64 + Z.of_nat (length a))) as [?|_]; [lia|].
  rewrite andb_false_r.
  exists (Z.to_nat (kth - 2^64 + Z.of_nat (length a))). split; [lia | done].
Qed.

(** ** The floats of [max_reads] *)

Lemma digits2_pos_size p : digits2_pos p = Pos.size p.
Proof. induction p as [p IH|p IH|]; simpl; by rewrite ?IH. Qed.

Lemma digits2_pos_iter_xO p k :
  digits2_pos (Pos.iter xO p k) = (digits2_pos p + k)%positive.
Proof.
  induction k as [|k IH] using Pos.peano_ind.
  - simpl. lia.
  - rewrite Pos.iter_succ. simpl. rewrite IH. lia.
Qed.

Lemma digits2_pos_bound p w :
  Zpos p < 2 ^ Zpos w -> Zpos (digits2_pos p) <= Zpos w.
Proof.
  intros Hp. rewrite digits2_pos_size.
  destruct (Z.le_gt_cases (Zpos (Pos.size p)) (Zpos w)) as [|Hgt]; [done|].
  pose proof (Pos.size_le p) as Hle.
  assert (2 ^ (Zpos w + 1) <= 2 ^ Zpos (Pos.size p)) as Hpow
    by (apply Z.pow_le_mono_r; lia).
  rewrite Z.pow_add_r, Z.pow_1_r in Hpow by lia.
  assert (Zpos (2 ^ Pos.size p) = 2 ^ Zpos (Pos.size p)) as Heq
    by apply Pos2Z.inj_pow.
  lia.
Qed.

(** Rounding a number that is already in canonical form changes nothing. *)
Lemma binary_round_aux_exact sx m e :
  fexp prec emax (Zpos (digits2_pos m) + e) = e -> e <= emax - prec ->
  binary_round_aux prec emax sx (Zpos m) e loc_Exact = S754_finite sx m e.
Proof.
  intros Hfexp He. unfold binary_round_aux, shr_fexp.
  cbn [Zdigits2 shr_record_of_loc]. rewrite Hfexp, Z.sub_diag.
  cbn [shr shr_m loc_of_shr_record round_nearest_even Zdigits2 shr_record_of_loc].
  rewrite Hfexp, Z.sub_diag. cbn [shr shr_m].
  destruct (Z.leb_spec e (emax - prec)); [done | lia].
Qed.

(** [float(n)] is exact, and finite, below [2^53]. *)
Lemma py_float_finite n :
  0 < n < 2 ^ 53 -> exists m e, py_float n = Ok (S754_finite false m e).
Proof.
  intros [Hpos Hlt]. destruct n as [|p|p]; try lia.
  pose proof (digits2_pos_bound p 53 Hlt) as Hd.
  unfold py_float, binary_normalize, binary_round.
  assert (fexp prec emax (Zpos (digits2_pos p) + 0) = Zpos (digits2_pos p) - 53)
    as ->.
  { unfold fexp, SpecFloat.emin, prec, emax. lia. }
  unfold shl_align.
  destruct (Zpos (digits2_pos p) - 53 - 0) as [|k|k] eqn:Hk; try lia.
  - rewrite binary_round_aux_exact; [by eauto | |].
    + unfold fexp, SpecFloat.emin, prec, emax. lia.
    + unfold prec, emax. lia.
  - rewrite binary_round_aux_exact; [by eauto | |].
    + rewrite digits2_pos_iter_xO. unfold fexp, SpecFloat.emin, prec, emax. lia.
    + unfold prec, emax. lia.
Qed.

Lemma py_truediv_Ok_shape a b y :
  py_truediv a b = Ok y ->
  (exists s, y = S754_zero s) \/ (exists s m e, y = S754_finite s m e).
Proof.
  unfold py_truediv. destruct (b =? 0); [discriminate|].
  destruct (SFdiv _ _ _ _) as [s|s| |s m e]; intros [= <-]; eauto.
Qed.

Lemma SFmul_zero_l s y :
  (exists s', y = S754_zero s') \/ (exists s' m e, y = S754_finite s' m e) ->
  exists s', SFmul prec emax (S754_zero s) y = S754_zero s'.
Proof. intros [[s' ->]|(s' & m & e & ->)]; simpl; eauto. Qed.

(** No reads: [max_reads] is 0 whenever the percentage can be divided. *)
Lemma max_reads_empty percent :
  max_reads 0 percent
  = match py_truediv percent 100 with
    | Ok _ => Ok 0
    | Raise e => Raise e
    end.
Proof.
  unfold max_reads. destruct (py_truediv percent 100) as [y|e] eqn:Hy; [|done].
  rewrite bind_Ok. unfold py_mul_int_float.
  change (py_float (Z.of_nat 0)) with (Ok (A:=spec_float) (S754_zero false)).
  rewrite bind_Ok.
  destruct (SFmul_zero_l false y (py_truediv_Ok_shape _ _ _ Hy)) as [s' Hs'].
  rewrite bind_Ok, Hs'. done.
Qed.

Lemma percent_divides_all : forallb percent_divides (seq 0 101) = true.
Proof. vm_compute. reflexivity. Qed.

(** On the percentages of the documented range, and their negations, the
    division of the two exact integers is the IEEE 754 division of the two
    integers converted to floats first. *)
Lemma py_truediv_small_ints :
  forallb (fun p =>
             forallb (fun a =>
                        match SFcompare
                                (SFdiv prec emax (exact_int a) (exact_int 100))
                                (SFdiv prec emax
                                   (binary_normalize prec emax a 0 false)
                                   (binary_normalize prec emax 100 0 false))
                        with
                        | Some Eq => true
                        | _ => false
                        end)
                     [Z.of_nat p; - Z.of_nat p])
          (seq 0 101) = true.
Proof. vm_compute. reflexivity. Qed.

Lemma py_truediv_percent percent :
  0 <= percent <= 100 -> exists y, py_truediv percent 100 = Ok y.
Proof.
  intros Hp. pose proof percent_divides_all as Hall.
  rewrite forallb_forall in Hall.
  specialize (Hall (Z.to_nat percent)). unfold percent_divides in Hall.
  rewrite Z2Nat.id in Hall by lia.
  destruct (py_truediv percent 100); [by eauto|].
  discriminate Hall. apply in_seq. lia.
Qed.

(** ** The index array of either option *)

Lemma argpartition_Ok_inv np a kth part :
  argpartition np a kth = Ok part ->
  exists k, ((k < length a)%nat \/ a = []) /\ part = partition np a k.
Proof.
  unfold argpartition.
  destruct ((kth <? - 2^63) || (2^64 <=? kth)); [discriminate|].
  cbv zeta. set (kth' := if 2^63 <=? kth then kth - 2^64 else kth).
  set (k := if kth' <? 0 then kth' + Z.of_nat (length a) else kth').
  destruct (negb _ && _) eqn:Hb; [discriminate|].
  intros [= <-]. exists (Z.to_nat k). split; [|done].
  destruct a as [|x a]; [by right|left].
  apply andb_false_iff in Hb as [Hb|Hb]; [simpl in Hb; lia|].
  apply orb_false_iff in Hb as [?%Z.ltb_ge ?%Z.leb_gt]. lia.
Qed.

(** Under numpy's contract the index array, when there is one, holds
    indices of the input only, and without [--longest] there always is one. *)
Lemma longest_indices_range np lengths f :
  numpy_contract np lengths ->
  match longest_indices np lengths f with
  | Ok chosen => forall i, i ∈ chosen -> (i < length lengths)%nat
  | Raise _ => exists percent, f = longest percent
  end.
Proof.
  intros [Hsort Hpart]. destruct f as [percent|budget].
  - cbn [longest_indices].
    destruct (max_reads (length lengths) percent) as [m|e];
      [|rewrite bind_Raise; by eauto].
    rewrite bind_Ok.
    destruct (argpartition np lengths (- m)) as [part|e] eqn:Hp;
      [|rewrite bind_Raise; by eauto].
    rewrite bind_Ok.
    apply argpartition_Ok_inv in Hp as (k & Hk & ->).
    intros i Hi%py_slice_from_subseteq.
    by apply (index_array_elem _ _ _ (argpartition_index_array _ _ _ (Hpart k Hk))).
  - destruct (longest_indices_bases np lengths budget Hsort) as (last & -> & H).
    done.
Qed.

(** ** Selected and others (C8) *)

Lemma ids_partition (ids : list string) (chosen : list nat) :
  NoDup ids ->
  (forall i, i ∈ chosen -> (i < length ids)%nat) ->
  let selected := ids_at ids chosen in
  let rest := ids_at ids (filter (fun i => i ∉ chosen) (seq 0 (length ids))) in
  (list_to_set selected ∪ list_to_set rest : gset string) = list_to_set ids
  /\ (list_to_set selected : gset string) ## list_to_set rest.
Proof.
  intros Hnd Hch selected rest.
  assert (forall i, i ∈ filter (fun i => i ∉ chosen) (seq 0 (length ids)) ->
                    (i < length ids)%nat) as Hrest.
  { intros i [_ Hi]%list_elem_of_filter. apply elem_of_seq in Hi. lia. }
  split.
  - apply set_eq. intros x.
    rewrite elem_of_union, !elem_of_list_to_set.
    unfold selected, rest. rewrite !elem_of_ids_at by done.
    rewrite list_elem_of_lookup. split.
    + intros [(i & _ & Hx)|(i & _ & Hx)]; eauto.
    + intros (i & Hx). destruct (decide (i ∈ chosen)) as [Hi|Hi].
      * left. eauto.
      * right. exists i. split; [|done].
        apply list_elem_of_filter. split; [done|].
        apply elem_of_seq. apply lookup_lt_Some in Hx. lia.
  - apply elem_of_disjoint. intros x.
    rewrite !elem_of_list_to_set.
    unfold selected, rest. rewrite !elem_of_ids_at by done.
    intros (i & Hi & Hxi) (j & [Hj _]%list_elem_of_filter & Hxj).
    by rewrite (NoDup_lookup ids i j x Hnd Hxi Hxj) in Hi.
Qed.

(** C8. With [--others], whenever the selection produces its outputs, the
    set of selected ids and the set of other ids are disjoint and their union
    is the set of all ids of the input; with [--bases] the outputs are always
    produced, with [--longest] the selection can raise instead. The ids are
    the keys of a dictionary, hence distinct. *)
Theorem selected_others_partition
        (np : numpy) (record_dict : list (string * Z)) (f : filt) :
  NoDup record_dict.*1 ->
  numpy_contract np record_dict.*2 ->
  match extract_long_reads np record_dict f true with
  | Ok (selected, Some rest) =>
      (list_to_set selected ∪ list_to_set rest : gset string)
      = list_to_set record_dict.*1
      /\ (list_to_set selected : gset string) ## list_to_set rest
  | Ok (_, None) => False
  | Raise _ => exists percent, f = longest percent
  end.
Proof.
  intros Hnd Hnp. pose proof (longest_indices_range np _ f Hnp) as Hrange.
  destruct (longest_indices np record_dict.*2 f) as [chosen|e] eqn:Hch.
  - rewrite length_fmap in Hrange.
    rewrite (extract_of_chosen _ _ _ _ chosen) by done.
    rewrite <- (length_fmap fst record_dict).
    apply ids_partition; [done|]. by rewrite length_fmap.
  - by rewrite (extract_raises _ _ _ _ e).
Qed.

(** The contract of the stable numpy on an array of [n] given numbers, by
    evaluation at each position. *)
Tactic Notation "contract_by_cases" integer(n) :=
  split; [reflexivity|];
  let k := fresh "k" in let Hk := fresh "Hk" in
  intros k [Hk|Hk]; [|discriminate Hk];
  do n (destruct k as [|k]; [reflexivity|]);
  exfalso; simpl in Hk; lia.

Lemma np_stable_contract_abc : numpy_contract np_stable abc.*2.
Proof. contract_by_cases 3. Qed.

Lemma abc_ids_NoDup : NoDup abc.*1.
Proof. apply (bool_decide_unpack _). vm_compute. exact I. Qed.

Lemma selected_others_partition_witness :
  (list_to_set ["a"] ∪ list_to_set ["b"; "c"] : gset string)
  = list_to_set ["a"; "b"; "c"]
  /\ (list_to_set ["a"] : gset string) ## list_to_set ["b"; "c"].
Proof.
  refine (selected_others_partition np_stable abc (longest 34) _ _).
  - apply abc_ids_NoDup.
  - apply np_stable_contract_abc.
Defined.

(** ** The empty input (C4) *)

Lemma py_truediv_raises_overflow percent e :
  py_truediv percent 100 = Raise e -> e = OverflowError.
Proof.
  unfold py_truediv. simpl (100 =? 0).
  destruct (SFdiv _ _ _ _); congruence.
Qed.

Lemma extract_empty_longest np others percent :
  numpy_contract np [] ->
  extract_long_reads np [] (longest percent) others
  = match py_truediv percent 100 with
    | Ok _ => Ok (no_ids others)
    | Raise e => Raise e
    end.
Proof.
  intros [_ Hpart].
  pose proof (argpartition_index_array _ _ _ (Hpart O (or_intror eq_refl)))
    as Hnil%index_array_nil.
  unfold extract_long_reads, longest_indices. cbn [fmap list_fmap length].
  rewrite max_reads_empty.
  destruct (py_truediv percent 100) as [y|e]; [|done].
  rewrite bind_Ok.
  change (argpartition np [] (- 0)) with (Ok (A:=list nat) (partition np [] O)).
  rewrite Hnil. by destruct others.
Qed.

(** C4. For the empty collection of records the selection raises nothing
    and returns no selected id and no other id: with [--bases] for every
    budget, and with [--longest] for every percentage from 0 to 100. For a
    percentage whatsoever the only exception possible there is the overflow of
    the division [percent / 100] itself. *)
Theorem extract_empty (np : numpy) (others : bool) :
  numpy_contract np [] ->
  (forall budget,
      extract_long_reads np [] (bases budget) others
      = Ok (no_ids others))
  /\ (forall percent, 0 <= percent <= 100 ->
      extract_long_reads np [] (longest percent) others
      = Ok (no_ids others))
  /\ (forall percent,
      extract_long_reads np [] (longest percent) others
      = Ok (no_ids others)
      \/ py_truediv percent 100 = Raise OverflowError).
Proof.
  intros Hnp. split; [|split].
  - intros budget. destruct Hnp as [Hsort%argsort_index_array%index_array_nil _].
    unfold extract_long_reads, longest_indices. cbn [fmap list_fmap].
    rewrite Hsort. by destruct others.
  - intros percent Hp. rewrite extract_empty_longest by done.
    by destruct (py_truediv_percent percent Hp) as [y ->].
  - intros percent. rewrite extract_empty_longest by done.
    destruct (py_truediv percent 100) as [y|e] eqn:He; [by left|right].
    by rewrite (py_truediv_raises_overflow _ _ He).
Qed.

Lemma np_stable_contract_nil : numpy_contract np_stable [].
Proof. split; [reflexivity|]. intros [|k] _; reflexivity. Qed.

Lemma extract_empty_witness :
  extract_long_reads np_stable [] (bases 120) true = Ok ([], Some [])
  /\ extract_long_reads np_stable [] (longest 34) true = Ok ([], Some []).
Proof.
  destruct (extract_empty np_stable true np_stable_contract_nil)
    as (Hb & Hl & _).
  split; [apply Hb | apply Hl; lia].
Defined.

(** ** The budget of bases (C1) *)

Lemma argsort_abc p : is_argsort abc.*2 p = true -> p = [2; 1; 0]%nat.
Proof.
  intros H.
  destruct p as [|i [|j [|k [|? ?]]]]; try discriminate H.
  destruct i as [|[|[|i]]]; destruct j as [|[|[|j]]];
    destruct k as [|[|[|k]]];
    first [ reflexivity | cbv in H; discriminate H ].
Qed.

(** C1, the code at the specification's scenario. For the records
    [(a,100), (b,50), (c,10)] and a budget of 120 bases the code selects
    [a] and [b], 150 bases, and leaves [c]: the loop adds up the lengths in
    ascending order (10, then 60, and stops at 160 with [last = 2]) while
    [longest] is cut from the descending [order]. This holds for every
    numpy that keeps its contract. *)
Theorem bases_scenario_selects_two (np : numpy) :
  numpy_contract np abc.*2 ->
  extract_long_reads np abc (bases 120) true = Ok (["a"; "b"], Some ["c"]).
Proof.
  intros [Hsort%argsort_abc _].
  unfold extract_long_reads, longest_indices. rewrite Hsort. reflexivity.
Qed.

Lemma bases_scenario_selects_two_witness :
  extract_long_reads np_stable abc (bases 120) true
  = Ok (["a"; "b"], Some ["c"]).
Proof.
  exact (bases_scenario_selects_two np_stable np_stable_contract_abc).
Defined.

(** ** A percentage that rounds down to no read (C9) *)

Lemma small_percent_zero_all :
  forallb (fun n => forallb (small_percent_zero n) (seq 1 99)) (seq 1 99) = true.
Proof. vm_compute. reflexivity. Qed.

Lemma max_reads_floor_zero (n : nat) (percent : Z) :
  (0 < n)%nat -> Z.of_nat n < 2 ^ 53 ->
  Z.of_nat n * percent / 100 = 0 ->
  max_reads n percent = Ok 0.
Proof.
  intros Hn Hbound Hfloor.
  apply Z.div_small_iff in Hfloor as [Hsmall|?]; [|lia|lia].
  assert (0 <= percent) as Hp by nia.
  destruct (Z.eq_dec percent 0) as [->|Hnz].
  - unfold max_reads.
    change (py_truediv 0 100) with (Ok (A:=spec_float) (S754_zero false)).
    rewrite bind_Ok. unfold py_mul_int_float.
    destruct (py_float_finite (Z.of_nat n)) as (m & e & ->); [lia|].
    done.
  - assert (Z.of_nat n < 100 /\ percent < 100) as [Hn' Hp'] by nia.
    assert (small_percent_zero n (Z.to_nat percent) = true) as Hall.
    { pose proof small_percent_zero_all as Hall.
      rewrite forallb_forall in Hall.
      specialize (Hall n ltac:(apply in_seq; lia)).
      rewrite forallb_forall in Hall. apply Hall, in_seq. lia. }
    unfold small_percent_zero in Hall. rewrite Z2Nat.id in Hall by lia.
    destruct (Z.ltb_spec (Z.of_nat n * percent) 100); [|lia].
    by destruct (max_reads n percent) as [[| |]|].
Qed.

Lemma filter_none {A} (P : A -> Prop) `{!forall x, Decision (P x)} (l : list A) :
  (forall x, x ∈ l -> ~ P x) -> filter P l = [].
Proof.
  induction l as [|x l IH]; intros Hl; [done|].
  rewrite filter_cons_False by (apply Hl; by left).
  apply IH. intros y Hy. apply Hl. by right.
Qed.

(** C9. With [--longest], when [floor(total * percent / 100)] is 0 for a
    collection that is not empty, the selection returns all the reads and no
    other read: [max_reads] is 0, and the slice [[-0:]] of the partition is
    the whole of it. The number of reads is taken below [2^53], where its
    conversion to a float is exact. *)
Theorem longest_zero_selects_all
        (np : numpy) (record_dict : list (string * Z)) (percent : Z) :
  (0 < length record_dict)%nat ->
  Z.of_nat (length record_dict) < 2 ^ 53 ->
  Z.of_nat (length record_dict) * percent / 100 = 0 ->
  numpy_contract np record_dict.*2 ->
  exists selected,
    extract_long_reads np record_dict (longest percent) true
    = Ok (selected, Some [])
    /\ selected ≡ₚ record_dict.*1.
Proof.
  intros Hn Hbound Hfloor [_ Hpart].
  pose proof (max_reads_floor_zero _ _ Hn Hbound Hfloor) as Hm.
  rewrite <- (length_fmap snd) in Hm.
  assert (argpartition np record_dict.*2 (- 0)
          = Ok (partition np record_dict.*2 O)) as Hp.
  { destruct (argpartition_Ok np record_dict.*2 (- 0)) as (k & _ & Hk & ->).
    - lia.
    - right. rewrite length_fmap. lia.
    - assert (record_dict.*2 <> []) as Hne
        by (intros Hnil%(f_equal length); rewrite length_fmap in Hnil;
            simpl in Hnil; lia).
      specialize (Hk Hne). simpl in Hk. by replace k with O by lia. }
  assert (is_index_array (length record_dict) (partition np record_dict.*2 O)
          = true) as Hidx.
  { rewrite <- (length_fmap snd).
    apply (argpartition_index_array _ O), Hpart. left.
    rewrite length_fmap. lia. }
  pose proof (longest_indices_longest _ _ _ _ _ Hm Hp) as Hch.
  change (- 0) with 0 in Hch. rewrite py_slice_from_0 in Hch.
  exists (ids_at record_dict.*1 (partition np record_dict.*2 O)).
  rewrite (extract_of_chosen _ _ _ _ _ Hch)
    by (intros i Hi; by apply (index_array_elem _ _ _ Hidx)).
  split.
  - do 3 f_equal. unfold ids_at. rewrite filter_none; [done|].
    intros i Hi%elem_of_seq Hni. apply Hni.
    apply (index_array_elem _ _ _ Hidx). lia.
  - unfold ids_at. rewrite <- (index_array_perm _ _ Hidx).
    rewrite <- (length_fmap fst). by rewrite fmap_lookup_total_seq.
Qed.

Lemma longest_zero_selects_all_witness :
  exists selected,
    extract_long_reads np_stable abc (longest 10) true = Ok (selected, Some [])
    /\ selected ≡ₚ ["a"; "b"; "c"].
Proof.
  apply (longest_zero_selects_all np_stable abc 10).
  - simpl. lia.
  - simpl. lia.
  - reflexivity.
  - apply np_stable_contract_abc.
Defined.

(** ** The longest reads by percentage (C2) *)

(** For up to 200 reads and the percentages from 0 to 100, [max_reads] is
    [floor(total * percent / 100)] or, where the double-precision product
    falls just below an integer, one less. *)
Lemma max_reads_near_floor :
  forallb (fun n => forallb (near_floor n) (seq 0 101)) (seq 0 201) = true.
Proof. vm_compute. reflexivity. Qed.

(** C2, counterexample. The number of selected ids is not
    [floor(total * percent / 100)] for every percentage from 0 to 100.
    Of the three reads of the scenario, 10 percent are no read, and the code
    selects all three: [max_reads] is 0 and the slice [[-0:]] is the whole
    partition. Of a hundred reads, 29 percent are 29 reads, and the code
    selects 28: [100 * (29 / 100)] is [28.999999999999996] in double
    precision, which [int] truncates. *)
Lemma longest_count_is_not_floor :
  (exists selected rest,
      extract_long_reads np_stable abc (longest 10) true
      = Ok (selected, Some rest)
      /\ length selected = 3%nat
      /\ Z.to_nat (Z.of_nat (length abc) * 10 / 100) = 0%nat)
  /\ (exists selected rest,
         extract_long_reads np_stable hundred (longest 29) true
         = Ok (selected, Some rest)
         /\ length selected = 28%nat
         /\ Z.to_nat (Z.of_nat (length hundred) * 29 / 100) = 29%nat).
Proof.
  split; do 2 eexists;
    (split; [vm_compute; reflexivity|]; split; reflexivity).
Qed.

Lemma argpartition_order a k p i j :
  is_argpartition a k p = true -> (k < length p)%nat ->
  i ∈ drop k p -> j ∈ take k p -> key a j <= key a i.
Proof.
  intros [[_ Hlow]%andb_prop Hhigh]%andb_prop Hk Hi Hj.
  rewrite forallb_forall in Hlow, Hhigh.
  destruct (lookup_lt_is_Some_2 p k Hk) as [x Hx].
  assert (nth k p O = x) as Hnth by (by rewrite nth_lookup, Hx).
  rewrite Hnth in Hlow, Hhigh.
  assert (key a j <= key a x) as Hjx.
  { apply Z.leb_le, Hlow. by apply list_elem_of_In. }
  rewrite (drop_S _ _ _ Hx) in Hi. apply elem_of_cons in Hi as [->|Hi]; [done|].
  assert (key a x <= key a i); [|lia].
  apply Z.leb_le, Hhigh. by apply list_elem_of_In.
Qed.

Lemma record_length (rd : list (string * Z)) i x lx :
  NoDup rd.*1 -> (rd.*1) !! i = Some x -> (x, lx) ∈ rd -> key rd.*2 i = lx.
Proof.
  intros Hnd Hi (i' & Hi')%list_elem_of_lookup.
  assert ((rd.*1) !! i' = Some x) as Hx by (by rewrite list_lookup_fmap, Hi').
  rewrite (NoDup_lookup _ _ _ _ Hnd Hi Hx).
  unfold key. by rewrite nth_lookup, list_lookup_fmap, Hi'.
Qed.

(** C2, as amended. With [--longest], whenever [max_reads], the number
    [int(total * (percent / 100))] that the code computes in double
    precision, lies between 1 and the number of reads, the selection returns
    exactly [max_reads] ids, and every selected read is at least as long as
    every read that is not selected. *)
Theorem longest_selects_max_reads
        (np : numpy) (record_dict : list (string * Z)) (percent m : Z) :
  NoDup record_dict.*1 ->
  numpy_contract np record_dict.*2 ->
  Z.of_nat (length record_dict) < 2 ^ 63 ->
  max_reads (length record_dict) percent = Ok m ->
  1 <= m <= Z.of_nat (length record_dict) ->
  exists selected rest,
    extract_long_reads np record_dict (longest percent) true
    = Ok (selected, Some rest)
    /\ Z.of_nat (length selected) = m
    /\ forall x lx y ly,
        x ∈ selected -> y ∈ rest ->
        (x, lx) ∈ record_dict -> (y, ly) ∈ record_dict ->
        ly <= lx.
Proof.
  intros Hnd [_ Hpart] Hbound Hm Hrange.
  set (n := length record_dict) in *.
  assert (length record_dict.*2 = n) as Hlen by apply length_fmap.
  assert (length record_dict.*1 = n) as Hlen1 by apply length_fmap.
  destruct (argpartition_Ok np record_dict.*2 (- m)) as (k & Hk & Hkz & Hp).
  { lia. }
  { right. rewrite Hlen. lia. }
  assert (record_dict.*2 <> []) as Hne.
  { intros Hnil. rewrite Hnil in Hlen. simpl in Hlen. lia. }
  destruct Hk as [Hk|?]; [|done]. rewrite Hlen in Hk.
  specialize (Hkz Hne). rewrite Hlen in Hkz.
  destruct (Z.ltb_spec (- m) 0); [|lia].
  pose proof (Hpart k (or_introl (eq_ind_r (fun l => (k < l)%nat) Hk Hlen)))
    as Hcontract.
  set (part := partition np record_dict.*2 k) in *.
  pose proof (argpartition_index_array _ _ _ Hcontract) as Hidx.
  rewrite Hlen in Hidx.
  pose proof (index_array_length _ _ Hidx) as Hplen.
  rewrite <- Hlen in Hm.
  pose proof (longest_indices_longest _ _ _ _ _ Hm Hp) as Hch.
  rewrite py_slice_from_neg in Hch by (rewrite Hplen; lia).
  replace (length part - Z.to_nat m)%nat with k in Hch by lia.
  assert (forall i, i ∈ drop k part -> (i < n)%nat) as Hin.
  { intros i Hi%subseteq_drop. by apply (index_array_elem _ _ _ Hidx). }
  exists (ids_at record_dict.*1 (drop k part)),
         (ids_at record_dict.*1
            (filter (fun i => i ∉ drop k part) (seq 0 n))).
  split; [exact (extract_of_chosen _ _ _ true _ Hch Hin)|].
  split.
  - unfold ids_at. rewrite length_fmap, length_drop. lia.
  - intros x lx y ly Hx Hy Hxl Hyl.
    apply elem_of_ids_at in Hx as (i & Hi & Hxi);
      [|intros ? ?; rewrite Hlen1; auto].
    apply elem_of_ids_at in Hy as (j & Hj & Hyj).
    2:{ intros ? [_ ?%elem_of_seq]%list_elem_of_filter. rewrite Hlen1.
        fold n. lia. }
    apply list_elem_of_filter in Hj as [Hj Hjn%elem_of_seq].
    rewrite <- (record_length record_dict i x lx) by done.
    rewrite <- (record_length record_dict j y ly) by done.
    apply (argpartition_order _ k part); [done | lia | done |].
    assert (j ∈ part) as Hjp by (apply (index_array_elem _ _ _ Hidx); fold n; lia).
    rewrite <- (take_drop k part) in Hjp.
    by apply elem_of_app in Hjp as [?|?].
Qed.

Lemma longest_selects_max_reads_witness :
  exists selected rest,
    extract_long_reads np_stable abc (longest 34) true
    = Ok (selected, Some rest)
    /\ Z.of_nat (length selected) = 1
    /\ forall x lx y ly,
        x ∈ selected -> y ∈ rest -> (x, lx) ∈ abc -> (y, ly) ∈ abc -> ly <= lx.
Proof.
  apply (longest_selects_max_reads np_stable abc 34 1).
  - apply abc_ids_NoDup.
  - apply np_stable_contract_abc.
  - simpl. lia.
  - reflexivity.
  - simpl. lia.
Defined.

(** ** Percentages out of range (C5) *)

(** C5, counterexample. 101 is not a percentage between 0 and 100, and with
    three reads the selection does not fail on it: [max_reads] is
    [int(3 * 1.01) = 3], an accepted partition position, and all three reads
    are written. *)
Lemma longest_101_percent_accepted :
  ~ (0 <= 101 <= 100)
  /\ extract_long_reads np_stable abc (longest 101) true
     = Ok (["c"; "b"; "a"], Some []).
Proof. split; [lia | reflexivity]. Qed.

Lemma raises_bind_l {A B} (m : result A) (f : A -> result B) :
  raises m -> raises (m ≫= f).
Proof. intros [e ->]. by exists e. Qed.

Lemma not_raises_Ok {A} (a : A) : ~ raises (Ok a).
Proof. intros [e He]. discriminate. Qed.

Lemma filter_all {A} (P : A -> Prop) `{!forall x, Decision (P x)} (l : list A) :
  (forall x, x ∈ l -> P x) -> filter P l = l.
Proof.
  induction l as [|x l IH]; intros Hl; [done|].
  rewrite filter_cons_True by (apply Hl; by left).
  f_equal. apply IH. intros y Hy. apply Hl. by right.
Qed.

Lemma py_slice_from_beyond {A} (l : list A) (i : Z) :
  Z.of_nat (length l) <= i -> py_slice_from l i = [].
Proof.
  intros Hi. unfold py_slice_from.
  destruct (Z.ltb_spec i 0) as [?|_]; [lia|].
  apply drop_ge. lia.
Qed.

(** C5, as amended. The percentage is not checked against a range. With
    [--longest] the selection raises exactly when [max_reads] cannot be
    computed (a float overflow), or when the input is not empty and the
    position [-max_reads] is refused by [argpartition]: [max_reads] is
    larger than the number [n] of reads, or it is at most [-n] and not from
    [-2^64 + 1] to [n - 2^64]. In that last range numpy wraps the position
    around and accepts it, the slice from [-max_reads] on is empty, and the
    selection returns no read and leaves all of them to the others. Every
    other percentage, inside or outside 0..100, produces the outputs. *)
Theorem longest_raises_iff
        (np : numpy) (record_dict : list (string * Z)) (percent : Z)
        (others : bool) :
  Z.of_nat (length record_dict) < 2 ^ 63 ->
  numpy_contract np record_dict.*2 ->
  (raises (extract_long_reads np record_dict (longest percent) others)
   <-> raises (max_reads (length record_dict) percent)
       \/ exists m, max_reads (length record_dict) percent = Ok m
                    /\ (0 < length record_dict)%nat
                    /\ (Z.of_nat (length record_dict) < m
                        \/ (m <= - Z.of_nat (length record_dict)
                            /\ ~ (- 2^64 < m
                                  <= Z.of_nat (length record_dict) - 2^64))))
  /\ (forall m, max_reads (length record_dict) percent = Ok m ->
                (0 < length record_dict)%nat ->
                - 2^64 < m <= Z.of_nat (length record_dict) - 2^64 ->
                extract_long_reads np record_dict (longest percent) others
                = Ok ([], if others then Some record_dict.*1 else None)).
Proof.
  intros Hbound Hnp.
  set (n := length record_dict) in *.
  assert (length record_dict.*2 = n) as Hlen by apply length_fmap.
  assert (forall m, max_reads n percent = Ok m -> (0 < n)%nat ->
                    - 2^64 < m <= Z.of_nat n - 2^64 ->
                    extract_long_reads np record_dict (longest percent) others
                    = Ok ([], if others then Some record_dict.*1 else None))
    as Hwrapped.
  { intros m Hm Hpos Hwin.
    destruct (argpartition_wrapped np record_dict.*2 (- m))
      as (k & Hk & Hp); [rewrite Hlen; lia | rewrite Hlen; lia |].
    rewrite <- Hlen in Hm.
    pose proof (longest_indices_longest _ _ _ _ _ Hm Hp) as Hch.
    rewrite py_slice_from_beyond in Hch.
    2:{ destruct Hnp as [_ Hpart].
        rewrite (index_array_length _ _
                   (argpartition_index_array _ _ _ (Hpart k (or_introl Hk)))).
        rewrite Hlen. lia. }
    rewrite (extract_of_chosen _ _ _ others _ Hch)
      by (by intros i ?%elem_of_nil).
    unfold ids_at at 1. cbn [fmap list_fmap]. do 2 f_equal.
    destruct others; [|done]. f_equal.
    rewrite filter_all by (intros i _; apply not_elem_of_nil).
    pose proof (fmap_lookup_total_seq record_dict.*1) as Hall.
    by rewrite length_fmap in Hall. }
  split; [|exact Hwrapped].
  destruct (max_reads n percent) as [m|e] eqn:Hm.
  2:{ split; [intros _; left; by eexists|]. intros _.
      unfold extract_long_reads, longest_indices.
      rewrite Hlen, Hm. by eexists. }
  destruct record_dict as [|r rd].
  { (* no reads *)
    rewrite extract_empty_longest by done.
    unfold n in Hm. simpl in Hm. rewrite max_reads_empty in Hm.
    destruct (py_truediv percent 100); [|discriminate].
    split; [by intros ?%not_raises_Ok|].
    intros [?%not_raises_Ok|(m' & _ & Hpos & _)]; [done|].
    unfold n in Hpos. simpl in Hpos. lia. }
  assert ((r :: rd).*2 <> []) as Hne by done.
  assert (0 < n)%nat as Hpos by (unfold n; simpl; lia).
  assert (raises (argpartition np (r :: rd).*2 (- m)) ->
          raises (extract_long_reads np (r :: rd) (longest percent) others))
    as Hrefused.
  { intros Hr. unfold extract_long_reads. apply raises_bind_l.
    unfold longest_indices. rewrite Hlen, Hm, bind_Ok.
    by apply raises_bind_l. }
  destruct (Z_lt_le_dec (Z.of_nat n) m) as [Hbig|Hle];
    [|destruct (Z_le_gt_dec m (- Z.of_nat n)) as [Hsmall|Hgt];
      [destruct (decide (- 2^64 < m <= Z.of_nat n - 2^64)) as [Hwin|Hout]|]].
  - (* max_reads above the number of reads *)
    split; [intros _; right; exists m; auto|]. intros _.
    apply Hrefused, argpartition_raises; [done | by rewrite Hlen |].
    rewrite Hlen. lia.
  - (* a position that wraps around *)
    rewrite (Hwrapped m eq_refl Hpos Hwin). split.
    + by intros ?%not_raises_Ok.
    + intros [?%not_raises_Ok|(m' & [= <-] & _ & [?|[_ ?]])];
        [done | lia | done].
  - (* max_reads at most minus the number of reads *)
    split; [intros _; right; exists m; auto|]. intros _.
    apply Hrefused, argpartition_raises; [done | by rewrite Hlen |].
    rewrite Hlen. lia.
  - (* an accepted position *)
    split.
    + intros Hr. exfalso. revert Hr.
      pose proof (longest_indices_range np _ (longest percent) Hnp) as Hrange.
      destruct (argpartition_Ok np (r :: rd).*2 (- m)) as (k & _ & _ & Hp).
      { lia. }
      { right. rewrite Hlen. lia. }
      rewrite <- Hlen in Hm.
      rewrite (longest_indices_longest _ _ _ _ _ Hm Hp) in Hrange.
      rewrite (extract_of_chosen _ _ _ _ _
                 (longest_indices_longest _ _ _ _ _ Hm Hp)).
      * apply not_raises_Ok.
      * intros i Hi. rewrite <- (length_fmap snd). auto.
    + intros [?%not_raises_Ok|(m' & [= <-] & _ & [?|[? _]])]; [done|lia|lia].
Qed.

Lemma longest_raises_iff_witness :
  (raises (extract_long_reads np_stable abc (longest 150) true)
   <-> raises (max_reads 3 150)
       \/ exists m, max_reads 3 150 = Ok m /\ (0 < 3)%nat
                    /\ (Z.of_nat 3 < m
                        \/ (m <= - Z.of_nat 3
                            /\ ~ (- 2^64 < m <= Z.of_nat 3 - 2^64))))
  /\ (forall m, max_reads 3 150 = Ok m -> (0 < 3)%nat ->
                - 2^64 < m <= Z.of_nat 3 - 2^64 ->
                extract_long_reads np_stable abc (longest 150) true
                = Ok ([], Some abc.*1)).
Proof.
  apply (longest_raises_iff np_stable abc 150 true).
  - simpl. lia.
  - apply np_stable_contract_abc.
Defined.

(** At 2048 reads and a percentage of -900719925474099100, [max_reads] is
    [2048 - 2^64]: the position wraps around, nothing is selected and every
    read is left to the others. *)
Example longest_wrapped_position :
  max_reads 2048 (-900719925474099100) = Ok (2048 - 2^64)
  /\ extract_long_reads np_stable reads2048
       (longest (-900719925474099100)) true
     = Ok ([], Some reads2048.*1).
Proof. split; vm_compute; reflexivity. Qed.

(** * Properties of [chunks] *)

Lemma islice_Ok n :
  0 <= n <= sys_maxsize -> islice n = Ok (Z.to_nat n).
Proof.
  intros Hn. unfold islice.
  destruct (Z.ltb_spec n 0); [lia|].
  destruct (Z.ltb_spec sys_maxsize n); [lia|]. done.
Qed.

Lemma islice_raises n :
  n < 0 \/ sys_maxsize < n -> islice n = Raise ValueError.
Proof.
  intros Hn. unfold islice.
  destruct (Z.ltb_spec n 0); [done|].
  destruct (Z.ltb_spec sys_maxsize n); [done|lia].
Qed.

Lemma chunks_step_nil {A} n :
  0 <= n <= sys_maxsize -> chunks_step (A:=A) n [] = Ok None.
Proof.
  intros Hn. unfold chunks_step. rewrite islice_Ok, bind_Ok by done.
  by destruct (Z.to_nat n).
Qed.

Lemma chunks_step_cons {A} n (x : A) it :
  1 <= n <= sys_maxsize ->
  chunks_step n (x :: it)
  = Ok (Some ({| first_el := x; left_to_take := Z.to_nat n - 1 |}, it)).
Proof.
  intros Hn. unfold chunks_step. rewrite islice_Ok, bind_Ok by lia.
  destruct (Z.to_nat n) as [|k] eqn:Hk; [lia|].
  by replace (S k - 1)%nat with k by lia.
Qed.

(** The chunks that are read one after the other: chunk [i] is the slice of
    the input from item [i * n] on, [n] items long or as many as are left. *)
Lemma chunks_read_spec {A} fuel n (it : list A) :
  1 <= n <= sys_maxsize -> (length it < fuel)%nat ->
  exists cs,
    chunks_read fuel n it = Ok cs
    /\ concat cs = it
    /\ forall i,
        cs !! i = if decide (i * Z.to_nat n < length it)%nat
                  then Some (take (Z.to_nat n) (drop (i * Z.to_nat n) it))
                  else None.
Proof.
  intros Hn. set (k := Z.to_nat n). assert (1 <= k)%nat as Hk by lia.
  revert it. induction fuel as [|fuel IH]; intros it Hfuel; [lia|].
  destruct it as [|x it].
  - exists []. cbn [chunks_read]. rewrite chunks_step_nil, bind_Ok by lia.
    split; [done|]. split; [done|]. intros i.
    destruct (decide _) as [Hi|Hi]; [simpl in Hi; lia | done].
  - destruct (IH (drop (k - 1) it)) as (rest & Hrest & Hcat & Hlookup).
    { rewrite length_drop. simpl in Hfuel. lia. }
    exists ((x :: take (k - 1) it) :: rest).
    cbn [chunks_read]. rewrite chunks_step_cons, bind_Ok by done.
    cbn [read_chunk first_el left_to_take]. fold k.
    rewrite Hrest, bind_Ok. split; [done|]. split.
    + cbn [concat]. rewrite Hcat. simpl. by rewrite take_drop.
    + intros [|i].
      * destruct (decide _) as [Hi|Hi]; [|simpl in Hi; lia].
        simpl. f_equal. destruct k as [|k']; [lia|]. simpl.
        by replace (k' - 0)%nat with k' by lia.
      * cbn [lookup list_lookup]. rewrite Hlookup, length_drop.
        cbn [length].
        destruct (decide (i * k < length it - (k - 1))%nat);
          destruct (decide (S i * k < S (length it))%nat); try done; try lia.
        f_equal. f_equal. rewrite drop_drop.
        replace (S i * k)%nat with (S (k - 1 + i * k)) by lia. done.
Qed.

Lemma chunks_Ok {A} n (iterable : list A) :
  1 <= n <= sys_maxsize ->
  exists cs,
    chunks iterable n = Ok cs
    /\ concat cs = iterable
    /\ forall i,
        cs !! i = if decide (i * Z.to_nat n < length iterable)%nat
                  then Some (take (Z.to_nat n)
                               (drop (i * Z.to_nat n) iterable))
                  else None.
Proof. intros Hn. apply chunks_read_spec; [done | lia]. Qed.

Lemma chunks_zero {A} (iterable : list A) : chunks iterable 0 = Ok [].
Proof. unfold chunks. cbn [chunks_read]. by destruct iterable. Qed.

Lemma chunks_refused {A} n (iterable : list A) :
  n < 0 \/ sys_maxsize < n -> chunks iterable n = Raise ValueError.
Proof.
  intros Hn. unfold chunks. cbn [chunks_read]. unfold chunks_step.
  by rewrite islice_raises.
Qed.

(** X1. Read one after the other, the chunks of a chunk size from 1 to
    [sys.maxsize] put together again are the input: no item is lost, repeated
    or moved; no chunk is empty and none has more than [n] items. *)
Theorem chunks_concat {A} (iterable : list A) (n : Z) :
  1 <= n <= sys_maxsize ->
  exists cs,
    chunks iterable n = Ok cs
    /\ concat cs = iterable
    /\ Forall (fun c => 0 < Z.of_nat (length c) <= n) cs.
Proof.
  intros Hn. destruct (chunks_Ok n iterable Hn) as (cs & Hcs & Hcat & Hlookup).
  exists cs. split; [done|]. split; [done|].
  apply Forall_lookup. intros i c Hc. rewrite Hlookup in Hc.
  destruct (decide _) as [Hi|]; [|done]. injection Hc as <-.
  rewrite length_take, length_drop. lia.
Qed.

Lemma chunks_concat_witness :
  exists cs,
    chunks [1; 2; 3; 4; 5; 6; 7] 3 = Ok cs
    /\ concat cs = [1; 2; 3; 4; 5; 6; 7]
    /\ Forall (fun c => 0 < Z.of_nat (length c) <= 3) cs.
Proof. apply (chunks_concat [1; 2; 3; 4; 5; 6; 7] 3). vm_compute. split; discriminate. Defined.

(** X2. For a chunk size [n] from 1 to [sys.maxsize] there are
    [ceil(len / n)] chunks, and every chunk but the last has exactly [n]
    items. *)
Theorem chunks_count {A} (iterable : list A) (n : Z) :
  1 <= n <= sys_maxsize ->
  exists cs,
    chunks iterable n = Ok cs
    /\ Z.of_nat (length cs) = (Z.of_nat (length iterable) + n - 1) / n
    /\ forall i c, cs !! i = Some c -> (S i < length cs)%nat ->
                   Z.of_nat (length c) = n.
Proof.
  intros Hn. destruct (chunks_Ok n iterable Hn) as (cs & Hcs & _ & Hlookup).
  exists cs. split; [done|].
  set (k := Z.to_nat n) in *. set (len := length iterable) in *.
  assert (forall i, (i < length cs)%nat <-> (i * k < len)%nat) as Hlt.
  { intros i. rewrite <- lookup_lt_is_Some, Hlookup.
    destruct (decide _); split; intros H; try done; try lia.
    all: by destruct H. }
  split.
  - assert (~ (length cs * k < len)%nat) as Hge by (intros H%Hlt; lia).
    assert (length cs = O \/ ((length cs - 1) * k < len)%nat) as Hlast.
    { destruct (length cs) as [|m]; [by left|right]. apply Hlt. lia. }
    apply Z.div_unique with
      (r := Z.of_nat len + n - 1 - n * Z.of_nat (length cs)); [|lia].
    left. split; [|nia].
    destruct Hlast as [->|Hlast]; [lia|]. nia.
  - intros i c Hc Hi. apply Hlt in Hi. rewrite Hlookup in Hc.
    destruct (decide _); [|done]. injection Hc as <-.
    rewrite length_take, length_drop. fold len. lia.
Qed.

Lemma chunks_count_witness :
  exists cs,
    chunks [1; 2; 3; 4; 5; 6; 7] 3 = Ok cs
    /\ Z.of_nat (length cs) = 3
    /\ forall i c, cs !! i = Some c -> (S i < length cs)%nat ->
                   Z.of_nat (length c) = 3.
Proof. apply (chunks_count [1; 2; 3; 4; 5; 6; 7] 3). vm_compute. split; discriminate. Defined.

(** X3. A chunk size of 0 gives no chunk at all, whatever the input, and
    raises nothing; [chunks] raises, with [ValueError] and also on an empty
    input, exactly for a chunk size below 0 or above [sys.maxsize]. *)
Theorem chunks_zero_or_refused {A} (iterable : list A) (n : Z) :
  chunks iterable 0 = Ok []
  /\ (raises (chunks iterable n) <-> n < 0 \/ sys_maxsize < n)
  /\ (n < 0 \/ sys_maxsize < n -> chunks iterable n = Raise ValueError).
Proof.
  split; [apply chunks_zero|]. split; [|apply chunks_refused].
  split.
  - intros Hr. destruct (Z.ltb_spec n 0); [by left|].
    destruct (Z.ltb_spec sys_maxsize n); [by right|]. exfalso.
    destruct (Z.eq_dec n 0) as [->|Hnz].
    + rewrite chunks_zero in Hr. by apply not_raises_Ok in Hr.
    + destruct (chunks_Ok n iterable) as (cs & Hcs & _); [lia|].
      rewrite Hcs in Hr. by apply not_raises_Ok in Hr.
  - intros Hn. rewrite chunks_refused by done. by eexists.
Qed.

Lemma chunks_unread_spec {A} fuel n (it : list A) :
  1 <= n <= sys_maxsize -> (length it < fuel)%nat ->
  chunks_unread fuel n it
  = Ok ((fun x => {| first_el := x; left_to_take := Z.to_nat n - 1 |}) <$> it,
        []).
Proof.
  intros Hn. revert it. induction fuel as [|fuel IH]; intros it Hfuel; [lia|].
  destruct it as [|x it]; cbn [chunks_unread].
  - by rewrite chunks_step_nil by lia.
  - rewrite chunks_step_cons, bind_Ok by done.
    rewrite IH by (simpl in Hfuel; lia). done.
Qed.

(** X4. When the chunks are collected first and read afterwards, as in
    [[list(c) for c in list(chunks(iterable, n))]], each chunk holds a single
    item, whatever the chunk size from 1 on: the shared iterator is used up by
    the first items before any chunk is read. *)
Theorem chunks_listed_singletons {A} (iterable : list A) (n : Z) :
  1 <= n <= sys_maxsize ->
  chunks_listed iterable n = Ok ((fun x => [x]) <$> iterable).
Proof.
  intros Hn. unfold chunks_listed.
  rewrite chunks_unread_spec, bind_Ok by (done || lia).
  f_equal. induction iterable as [|x l IH]; [done|].
  cbn [fmap list_fmap read_chunks read_chunk first_el left_to_take].
  rewrite take_nil, drop_nil. f_equal. apply IH.
Qed.

Lemma chunks_listed_singletons_witness :
  chunks_listed [1; 2; 3; 4; 5] 3 = Ok [[1]; [2]; [3]; [4]; [5]].
Proof. apply (chunks_listed_singletons [1; 2; 3; 4; 5] 3). vm_compute. split; discriminate. Defined.

(** * Properties of [split_fastx] *)

Lemma join_app ss ts : join (ss ++ ts) = join ss +:+ join ts.
Proof.
  induction ss as [|x ss IH]; [done|].
  cbn [app join foldr] in *. fold (join (ss ++ ts)). fold (join ss).
  by rewrite IH, append_assoc.
Qed.

Lemma string_of_list_ascii_app l k :
  string_of_list_ascii (l ++ k)
  = string_of_list_ascii l +:+ string_of_list_ascii k.
Proof.
  induction l as [|c l IH]; [done|].
  cbn [app string_of_list_ascii]. by rewrite IH.
Qed.

Lemma join_strings_of_lists (cs : list (list ascii)) :
  join (string_of_list_ascii <$> cs) = string_of_list_ascii (concat cs).
Proof.
  induction cs as [|c cs IH]; [done|].
  cbn [fmap list_fmap join foldr concat].
  fold (join (string_of_list_ascii <$> cs)).
  by rewrite IH, string_of_list_ascii_app.
Qed.

Lemma length_string_of_list_ascii l :
  String.length (string_of_list_ascii l) = length l.
Proof. induction l as [|c l IH]; simpl; [done | by rewrite IH]. Qed.

Lemma length_list_ascii_of_string s :
  length (list_ascii_of_string s) = String.length s.
Proof. induction s as [|c s IH]; simpl; [done | by rewrite IH]. Qed.

(** The chunks of a string: joined they are the string, and chunk [i] has
    [n] characters or as many as are left from character [i * n] on. *)
Lemma string_chunks_spec s n :
  1 <= n <= sys_maxsize ->
  exists ss,
    string_chunks s n = Ok ss
    /\ join ss = s
    /\ (forall i, is_Some (ss !! i)
                  <-> (i * Z.to_nat n < String.length s)%nat)
    /\ (forall i c, ss !! i = Some c ->
                    String.length c
                    = (Z.to_nat n `min` (String.length s - i * Z.to_nat n))%nat).
Proof.
  intros Hn.
  destruct (chunks_Ok n (list_ascii_of_string s) Hn)
    as (cs & Hcs & Hcat & Hlookup).
  exists (string_of_list_ascii <$> cs).
  unfold string_chunks. rewrite Hcs, bind_Ok. split; [done|].
  rewrite length_list_ascii_of_string in Hlookup.
  split; [|split].
  - by rewrite join_strings_of_lists, Hcat, string_of_list_ascii_of_string.
  - intros i. rewrite list_lookup_fmap, Hlookup.
    destruct (decide _); simpl; split; intros H; try done; try lia.
    all: by destruct H.
  - intros i c. rewrite list_lookup_fmap, Hlookup.
    destruct (decide _); simpl; [|done]. intros [= <-].
    rewrite length_string_of_list_ascii, length_take, length_drop.
    by rewrite length_list_ascii_of_string.
Qed.

Lemma string_chunks_zero s : string_chunks s 0 = Ok [].
Proof. unfold string_chunks. by rewrite chunks_zero. Qed.

Lemma string_chunks_refused s n :
  n < 0 \/ sys_maxsize < n -> string_chunks s n = Raise ValueError.
Proof. intros Hn. unfold string_chunks. by rewrite chunks_refused. Qed.

Lemma string_chunks_empty n :
  0 <= n <= sys_maxsize -> string_chunks "" n = Ok [].
Proof.
  intros Hn. unfold string_chunks, chunks. cbn [list_ascii_of_string length chunks_read].
  by rewrite chunks_step_nil.
Qed.

(** Two strings of one length are cut alike. *)
Lemma string_chunks_same_shape s q n ss qs :
  1 <= n <= sys_maxsize -> String.length q = String.length s ->
  string_chunks s n = Ok ss -> string_chunks q n = Ok qs ->
  length qs = length ss
  /\ forall i c d, ss !! i = Some c -> qs !! i = Some d ->
                   String.length d = String.length c.
Proof.
  intros Hn Hlen Hs Hq.
  destruct (string_chunks_spec s n Hn) as (ss' & Hs' & _ & Hsome & Hsize).
  destruct (string_chunks_spec q n Hn) as (qs' & Hq' & _ & Hsomeq & Hsizeq).
  rewrite Hs in Hs'. rewrite Hq in Hq'.
  injection Hs' as <-. injection Hq' as <-. rewrite Hlen in *.
  split.
  - destruct (Nat.lt_trichotomy (length qs) (length ss)) as [Hlt|[?|Hlt]];
      [|done|].
    + apply lookup_lt_is_Some, Hsome, Hsomeq, lookup_lt_is_Some in Hlt. lia.
    + apply lookup_lt_is_Some, Hsomeq, Hsome, lookup_lt_is_Some in Hlt. lia.
  - intros i c d Hc Hd. by rewrite (Hsize i c Hc), (Hsizeq i d Hd).
Qed.

Lemma string_chunks_short s n :
  (1 <= String.length s <= Z.to_nat n)%nat -> n <= sys_maxsize ->
  string_chunks s n = Ok [s].
Proof.
  intros Hlen Hmax.
  destruct (string_chunks_spec s n) as (ss & -> & Hjoin & Hsome & _); [lia|].
  f_equal.
  destruct ss as [|c [|d ss]].
  - destruct (proj2 (Hsome 0%nat)) as [? [=]]. lia.
  - cbn [join foldr] in Hjoin. by rewrite append_empty_r in Hjoin; subst.
  - assert (is_Some ((c :: d :: ss) !! 1%nat)) as H%Hsome by (by eexists).
    lia.
Qed.

Lemma fmap_imap_values {A B C} (g : B -> C) (f : nat -> A -> B) (h : A -> C)
    (l : list A) :
  (forall i x, g (f i x) = h x) -> g <$> imap f l = h <$> l.
Proof.
  revert f. induction l as [|x l IH]; intros f Hf; [done|].
  cbn [imap fmap list_fmap]. rewrite Hf. f_equal.
  apply IH. intros i y. apply Hf.
Qed.

Lemma fmap_imap_indices {A B C} (g : B -> C) (f : nat -> A -> B)
    (h : nat -> C) (l : list A) :
  (forall i x, g (f i x) = h i) -> g <$> imap f l = h <$> seq 0 (length l).
Proof.
  revert f h. induction l as [|x l IH]; intros f h Hf; [done|].
  cbn [imap fmap list_fmap length seq]. rewrite Hf. f_equal.
  rewrite <- fmap_S_seq, <- list_fmap_compose.
  apply IH. intros i y. apply Hf.
Qed.

Lemma append_inj_l s a b : s +:+ a = s +:+ b -> a = b.
Proof.
  induction s as [|c s IH]; [done|].
  rewrite !append_cons. by intros [= ?%IH].
Qed.

Lemma py_str_inj m n : 0 <= m -> 0 <= n -> py_str m = py_str n -> m = n.
Proof.
  intros Hm Hn Heq.
  destruct (py_str_value m Hm) as (_ & _ & Hvm).
  destruct (py_str_value n Hn) as (_ & _ & Hvn).
  rewrite Heq, Hvn in Hvm. by injection Hvm.
Qed.

Lemma chunk_name_of_inj name i j :
  chunk_name_of name i = chunk_name_of name j -> i = j.
Proof.
  unfold chunk_name_of. intros H%append_inj_l%append_inj_l.
  apply py_str_inj in H; lia.
Qed.

(** The chunks of a record are those of its sequence, numbered from 0, with
    those of the quality beside them where there is one. *)
Lemma record_chunks_bind rec n :
  record_chunks rec n
  = (ss ← string_chunks (Fastx.sequence rec) n;
     sqs ← match Fastx.quality rec with
           | None => Ok ((fun s => (s, None)) <$> ss)
           | Some qual =>
               qs ← string_chunks qual n;
               Ok ((fun sq => (sq.1, Some sq.2)) <$> zip ss qs)
           end;
     Ok (imap (fun i sq =>
                 {| chunk_name := chunk_name_of (Fastx.name rec) i;
                    chunk_comment := comment_of rec n;
                    chunk_seq := sq.1; chunk_qual := sq.2 |}) sqs)).
Proof.
  unfold record_chunks.
  destruct (Fastx.quality rec) as [qual|];
    destruct (string_chunks (Fastx.sequence rec) n) as [ss|e];
    rewrite ?bind_Ok, ?bind_Raise; try done.
  - destruct (string_chunks qual n) as [qs|e];
      rewrite ?bind_Ok, ?bind_Raise; [|done].
    f_equal. by rewrite imap_fmap.
  - f_equal. by rewrite imap_fmap.
Qed.

Lemma record_chunks_names rec n cs :
  record_chunks rec n = Ok cs ->
  chunk_name <$> cs
  = chunk_name_of (Fastx.name rec) <$> seq 0 (length cs).
Proof.
  rewrite record_chunks_bind.
  destruct (string_chunks (Fastx.sequence rec) n) as [ss|e];
    rewrite ?bind_Ok, ?bind_Raise; [|done].
  destruct (match Fastx.quality rec with None => _ | Some _ => _ end)
    as [sqs|e]; rewrite ?bind_Ok, ?bind_Raise; [|done].
  intros [= <-]. rewrite length_imap. by apply fmap_imap_indices.
Qed.

Lemma record_chunks_zero rec : record_chunks rec 0 = Ok [].
Proof.
  rewrite record_chunks_bind, string_chunks_zero, bind_Ok.
  destruct (Fastx.quality rec); [|done].
  by rewrite string_chunks_zero.
Qed.

Lemma record_chunks_refused rec n :
  n < 0 \/ sys_maxsize < n -> record_chunks rec n = Raise ValueError.
Proof.
  intros Hn. by rewrite record_chunks_bind, string_chunks_refused.
Qed.

Lemma record_chunks_total rec n :
  0 <= n <= sys_maxsize -> exists cs, record_chunks rec n = Ok cs.
Proof.
  intros Hn. destruct (decide (n = 0)) as [->|Hn0].
  { eexists. apply record_chunks_zero. }
  rewrite record_chunks_bind.
  destruct (string_chunks_spec (Fastx.sequence rec) n) as (ss & -> & _);
    [lia|].
  rewrite bind_Ok. destruct (Fastx.quality rec) as [qual|].
  - destruct (string_chunks_spec qual n) as (qs & -> & _); [lia|].
    by eexists.
  - by eexists.
Qed.

Lemma mapM_app_result {A B} (f : A -> result B) l k :
  mapM f (l ++ k)
  = (a ← mapM f l; b ← mapM f k; Ok (a ++ b)).
Proof.
  induction l as [|x l IH].
  - cbn [app mapM]. rewrite bind_Ok. by destruct (mapM f k).
  - cbn [app mapM]. rewrite IH.
    destruct (f x) as [y|e]; [|done].
    destruct (mapM f l) as [a|e]; [|done].
    by destruct (mapM f k).
Qed.

Lemma mapM_all_nil {A B} (f : A -> result (list B)) l :
  (forall x, f x = Ok []) ->
  exists css, mapM f l = Ok css /\ concat css = [].
Proof.
  intros Hf. induction l as [|x l (css & IH & Hcat)]; [by exists []|].
  exists ([] :: css). cbn [mapM]. by rewrite Hf, IH.
Qed.

Lemma fmap_ext_all {A B} (f g : A -> B) (l : list A) :
  (forall x, f x = g x) -> f <$> l = g <$> l.
Proof.
  intros Hfg. induction l as [|x l IH]; [done|].
  cbn [fmap list_fmap]. by rewrite Hfg, IH.
Qed.

(** X5. Cutting a record loses nothing: for a chunk size from 1 to
    [sys.maxsize], and a quality string as long as the sequence where there
    is one, the chunks' sequences joined in order are the record's sequence,
    each has from 1 to [chunksize] characters, and the chunks' qualities
    joined are the record's quality, each as long as its chunk's sequence.
    A FASTA record's chunks have no quality. *)
Theorem split_record_roundtrip rec n :
  1 <= n <= sys_maxsize ->
  (forall q, Fastx.quality rec = Some q ->
             String.length q = String.length (Fastx.sequence rec)) ->
  exists cs,
    record_chunks rec n = Ok cs
    /\ join (chunk_seq <$> cs) = Fastx.sequence rec
    /\ Forall (fun c => (1 <= String.length (chunk_seq c) <= Z.to_nat n)%nat)
              cs
    /\ match Fastx.quality rec with
       | None => Forall (fun c => chunk_qual c = None) cs
       | Some q =>
           exists qs,
             chunk_qual <$> cs = Some <$> qs
             /\ join qs = q
             /\ Forall2 (fun c q' =>
                           String.length q' = String.length (chunk_seq c))
                        cs qs
       end.
Proof.
  intros Hn Hq. rewrite record_chunks_bind.
  destruct (string_chunks_spec (Fastx.sequence rec) n Hn)
    as (ss & Hss & Hjoin & Hsome & Hsize).
  rewrite Hss, bind_Ok.
  assert (Forall (fun s => (1 <= String.length s <= Z.to_nat n)%nat) ss)
    as Hbound.
  { apply Forall_lookup_2. intros i c Hc.
    assert (is_Some (ss !! i)) as Hi%Hsome by (by eexists).
    rewrite (Hsize i c Hc). lia. }
  destruct (Fastx.quality rec) as [qual|].
  - destruct (string_chunks_spec qual n Hn) as (qs & Hqs & Hjoinq & _).
    destruct (string_chunks_same_shape _ _ _ _ _ Hn (Hq _ eq_refl) Hss Hqs)
      as [Hlen Hsame].
    rewrite Hqs, !bind_Ok. eexists. split; [done|].
    split; [|split].
    + rewrite (fmap_imap_values _ _ fst) by done.
      rewrite <- list_fmap_compose.
      rewrite (fmap_ext_all _ fst) by done.
      rewrite fst_zip by lia. done.
    + apply Forall_lookup_2. intros i c.
      rewrite list_lookup_imap, list_lookup_fmap.
      destruct (zip ss qs !! i) as [[s q]|] eqn:Hz; [|done].
      intros [= <-]. simpl.
      apply lookup_zip_Some in Hz as [Hs _].
      by apply (Forall_lookup_1 _ _ _ _ Hbound Hs).
    + exists qs. split; [|split; [done|]].
      * rewrite (fmap_imap_values _ _ snd) by done.
        rewrite <- list_fmap_compose.
        rewrite <- (snd_zip ss qs) at 2 by lia.
        rewrite <- list_fmap_compose. by apply fmap_ext_all.
      * apply Forall2_same_length_lookup_2.
        { rewrite length_imap, length_fmap, length_zip. lia. }
        intros i c q'. rewrite list_lookup_imap, list_lookup_fmap.
        destruct (zip ss qs !! i) as [[s q]|] eqn:Hz; [|done].
        intros [= <-] Hq'. simpl.
        apply lookup_zip_Some in Hz as [Hs Hqi].
        rewrite Hq' in Hqi. injection Hqi as ->. by eapply Hsame.
  - rewrite bind_Ok. eexists. split; [done|]. split; [|split].
    + rewrite (fmap_imap_values _ _ fst) by done.
      rewrite <- list_fmap_compose.
      rewrite (fmap_ext_all _ id) by done.
      by rewrite list_fmap_id.
    + apply Forall_lookup_2. intros i c.
      rewrite list_lookup_imap, list_lookup_fmap.
      destruct (ss !! i) as [s|] eqn:Hs; [|done].
      intros [= <-]. simpl.
      by apply (Forall_lookup_1 _ _ _ _ Hbound Hs).
    + apply Forall_lookup_2. intros i c.
      rewrite list_lookup_imap, list_lookup_fmap.
      destruct (ss !! i) as [s|]; [|done]. by intros [= <-].
Qed.

Lemma split_record_roundtrip_witness :
  exists cs,
    record_chunks fastq_read 2 = Ok cs
    /\ join (chunk_seq <$> cs) = "ACGTA"
    /\ Forall (fun c => (1 <= String.length (chunk_seq c) <= 2)%nat) cs
    /\ exists qs,
        chunk_qual <$> cs = Some <$> qs
        /\ join qs = "!#%&("
        /\ Forall2 (fun c q' =>
                      String.length q' = String.length (chunk_seq c)) cs qs.
Proof.
  apply (split_record_roundtrip fastq_read 2).
  - vm_compute. split; discriminate.
  - intros q [= <-]. reflexivity.
Defined.

(** X6. The chunks written for one record have pairwise different names:
    the record's name followed by [_chunk] and the chunk's number, counted
    from 0 for every record, for FASTA and FASTQ alike. *)
Theorem chunk_names_distinct rec n cs :
  record_chunks rec n = Ok cs ->
  NoDup (chunk_name <$> cs)
  /\ forall i c, cs !! i = Some c ->
                 chunk_name c
                 = Fastx.name rec +:+ "_chunk" +:+ py_str (Z.of_nat i).
Proof.
  intros Hcs. pose proof (record_chunks_names _ _ _ Hcs) as Hnames. split.
  - rewrite Hnames. apply NoDup_fmap_2; [|apply NoDup_seq].
    intros i j. apply chunk_name_of_inj.
  - intros i c Hc.
    assert ((chunk_name <$> cs) !! i = Some (chunk_name c)) as Hi
      by (by rewrite list_lookup_fmap, Hc).
    rewrite Hnames, list_lookup_fmap in Hi.
    destruct (seq 0 (length cs) !! i) as [j|] eqn:Hj; [|done].
    apply lookup_seq in Hj as [-> _]. by injection Hi as <-.
Qed.

Lemma chunk_names_distinct_witness :
  exists cs,
    record_chunks fastq_read 2 = Ok cs
    /\ NoDup (chunk_name <$> cs)
    /\ forall i c, cs !! i = Some c ->
                   chunk_name c = "r1" +:+ "_chunk" +:+ py_str (Z.of_nat i).
Proof.
  eexists. split; [reflexivity|].
  apply (chunk_names_distinct fastq_read 2). reflexivity.
Defined.

(** X7. The chunk size decides alone whether [split_fastx] fails: with a
    chunk size of 0 nothing is written, whatever the records; an exception is
    raised exactly when there is a record and the chunk size is negative or
    above [sys.maxsize], and it is the [ValueError] of [islice]. *)
Theorem split_fastx_zero_or_refused records n :
  split_fastx records 0 = Ok ""
  /\ (raises (split_fastx records n)
      <-> records <> [] /\ (n < 0 \/ sys_maxsize < n))
  /\ (raises (split_fastx records n)
      -> split_fastx records n = Raise ValueError).
Proof.
  assert (records <> [] /\ (n < 0 \/ sys_maxsize < n) ->
          split_fastx records n = Raise ValueError) as Hrefused.
  { intros [Hrec Hn]. destruct records as [|rec records]; [done|].
    unfold split_fastx. cbn [mapM].
    by rewrite (record_chunks_refused rec n Hn). }
  assert (raises (split_fastx records n) ->
          records <> [] /\ (n < 0 \/ sys_maxsize < n)) as Hraises.
  { intros Hr. unfold split_fastx in Hr.
    destruct (mapM _ records) as [css|e] eqn:Hm.
    { rewrite bind_Ok in Hr. by apply not_raises_Ok in Hr. }
    apply mapM_Raise_inv in Hm as (rec & Hin & Hrec). split.
    - intros ->. by apply elem_of_nil in Hin.
    - destruct (decide (0 <= n <= sys_maxsize)) as [Hn|Hn]; [|lia].
      destruct (record_chunks_total rec n Hn) as [cs Hcs]. congruence. }
  split; [|split].
  - unfold split_fastx.
    destruct (mapM_all_nil (fun rec => record_chunks rec 0) records
                record_chunks_zero) as (css & -> & Hcat).
    by rewrite bind_Ok, Hcat.
  - split; [done|]. intros H. rewrite (Hrefused H). by eexists.
  - intros H. by apply Hrefused, Hraises.
Qed.

(** X8. Records are cut independently and written one after the other: the
    output for two lists of records in a row is the output for the first
    followed by the output for the second, and it fails where either
    fails. *)
Theorem split_fastx_app xs ys n :
  split_fastx (xs ++ ys) n
  = (a ← split_fastx xs n; b ← split_fastx ys n; Ok (a +:+ b)).
Proof.
  unfold split_fastx. rewrite mapM_app_result.
  destruct (mapM _ xs) as [a|e]; [|done].
  destruct (mapM _ ys) as [b|e]; [|done].
  rewrite !bind_Ok. f_equal.
  by rewrite concat_app, fmap_app, join_app.
Qed.

(** X9. A read that is not longer than the chunk size is written as the
    single chunk [name_chunk0] with its whole sequence, and its whole quality
    where it has one. *)
Theorem split_fastx_short_read rec n :
  (1 <= String.length (Fastx.sequence rec) <= Z.to_nat n)%nat ->
  n <= sys_maxsize ->
  (forall q, Fastx.quality rec = Some q ->
             String.length q = String.length (Fastx.sequence rec)) ->
  split_fastx [rec] n
  = Ok (write_chunk {| chunk_name := Fastx.name rec +:+ "_chunk0";
                       chunk_comment := comment_of rec n;
                       chunk_seq := Fastx.sequence rec;
                       chunk_qual := Fastx.quality rec |}).
Proof.
  intros Hlen Hmax Hq. unfold split_fastx.
  rewrite mapM_singleton, record_chunks_bind.
  rewrite (string_chunks_short _ n Hlen Hmax), bind_Ok.
  destruct (Fastx.quality rec) as [qual|].
  - rewrite (string_chunks_short qual n), !bind_Ok
      by (rewrite ?(Hq qual eq_refl); done).
    cbn [zip zip_with fmap list_fmap imap concat app join foldr fst snd].
    by rewrite append_empty_r.
  - rewrite !bind_Ok.
    cbn [zip zip_with fmap list_fmap imap concat app join foldr fst snd].
    by rewrite append_empty_r.
Qed.

Lemma split_fastx_short_read_witness :
  split_fastx [fasta_read] 10000
  = Ok (write_chunk {| chunk_name := "r2" +:+ "_chunk0";
                       chunk_comment := comment_of fasta_read 10000;
                       chunk_seq := "GGCC"; chunk_qual := None |}).
Proof.
  apply (split_fastx_short_read fasta_read 10000).
  - simpl. lia.
  - vm_compute. discriminate.
  - intros q [=].
Defined.

(** * More properties of [extract_long_reads] *)

Lemma longest_indices_NoDup np lengths f chosen :
  numpy_contract np lengths ->
  longest_indices np lengths f = Ok chosen ->
  NoDup chosen /\ forall i, i ∈ chosen -> (i < length lengths)%nat.
Proof.
  intros Hnp Hch. split.
  2:{ pose proof (longest_indices_range np lengths f Hnp) as H.
      by rewrite Hch in H. }
  destruct Hnp as [Hsort Hpart]. destruct f as [percent|budget].
  - cbn [longest_indices] in Hch.
    destruct (max_reads (length lengths) percent) as [m|e]; [|done].
    rewrite bind_Ok in Hch.
    destruct (argpartition np lengths (- m)) as [part|e] eqn:Hp; [|done].
    rewrite bind_Ok in Hch. injection Hch as <-.
    apply argpartition_Ok_inv in Hp as (k & Hk & ->).
    unfold py_slice_from. eapply sublist_NoDup; [|apply sublist_drop].
    exact (index_array_NoDup _ _
             (argpartition_index_array _ _ _ (Hpart k Hk))).
  - destruct (longest_indices_bases np lengths budget Hsort)
      as (last & Hlast & _).
    rewrite Hlast in Hch. injection Hch as <-.
    eapply sublist_NoDup; [|apply sublist_take].
    rewrite reverse_Permutation.
    exact (index_array_NoDup _ _ (argsort_index_array _ _ Hsort)).
Qed.

Lemma chosen_complement_perm (chosen : list nat) n :
  NoDup chosen -> (forall i, i ∈ chosen -> (i < n)%nat) ->
  chosen ++ filter (fun i => i ∉ chosen) (seq 0 n) ≡ₚ seq 0 n.
Proof.
  intros Hnd Hin. apply NoDup_Permutation.
  - apply NoDup_app. split; [done|]. split.
    + by intros i Hi [Hni _]%list_elem_of_filter.
    + apply NoDup_filter, NoDup_seq.
  - apply NoDup_seq.
  - intros i. rewrite elem_of_app, list_elem_of_filter, elem_of_seq. split.
    + intros [Hi%Hin|[_ ?]]; lia.
    + intros Hi. destruct (decide (i ∈ chosen)); [by left | by right].
Qed.

Lemma ids_at_app ids p q : ids_at ids (p ++ q) = ids_at ids p ++ ids_at ids q.
Proof. unfold ids_at. apply fmap_app. Qed.

Lemma ids_at_perm ids p q : p ≡ₚ q -> ids_at ids p ≡ₚ ids_at ids q.
Proof. unfold ids_at. apply fmap_Permutation. Qed.

Lemma ids_at_all ids : ids_at ids (seq 0 (length ids)) = ids.
Proof. apply fmap_lookup_total_seq. Qed.

(** X10. Every read is written exactly once: with [--others], whenever
    the selection produces its outputs, the ids written to the output file
    followed by those written to the others file are a rearrangement of the
    ids of the input. No id is written twice and none is left out, in either
    mode, also where ids repeat. *)
Theorem every_read_written_once
        (np : numpy) (record_dict : list (string * Z)) (f : filt)
        (selected rest : list string) :
  numpy_contract np record_dict.*2 ->
  extract_long_reads np record_dict f true = Ok (selected, Some rest) ->
  selected ++ rest ≡ₚ record_dict.*1.
Proof.
  intros Hnp Hex.
  destruct (longest_indices np record_dict.*2 f) as [chosen|e] eqn:Hch.
  2:{ by rewrite (extract_raises _ _ _ _ _ Hch) in Hex. }
  destruct (longest_indices_NoDup _ _ _ _ Hnp Hch) as [Hnd Hin].
  rewrite length_fmap in Hin.
  rewrite (extract_of_chosen _ _ _ true _ Hch Hin) in Hex.
  injection Hex as <- <-.
  rewrite <- ids_at_app.
  pose proof (ids_at_all record_dict.*1) as Hall. rewrite length_fmap in Hall.
  rewrite <- Hall at 2.
  by apply ids_at_perm, chosen_complement_perm.
Qed.

Lemma every_read_written_once_witness :
  extract_long_reads np_stable abc (bases 120) true = Ok (["a"; "b"], Some ["c"])
  /\ ["a"; "b"] ++ ["c"] ≡ₚ abc.*1.
Proof.
  split; [reflexivity|].
  apply (every_read_written_once np_stable abc (bases 120) ["a"; "b"] ["c"]).
  - apply np_stable_contract.
  - reflexivity.
Defined.

Lemma filter_fmap_pre {A B} (f : A -> B) (P : B -> Prop)
    `{!forall y, Decision (P y)} (l : list A) :
  filter P (f <$> l) = f <$> filter (fun x => P (f x)) l.
Proof.
  induction l as [|x l IH]; [done|]. cbn [fmap list_fmap].
  destruct (decide (P (f x))) as [Hx|Hx].
  - rewrite !filter_cons_True by done. cbn [fmap list_fmap]. by rewrite IH.
  - by rewrite !filter_cons_False by done.
Qed.

Lemma filter_ext_in {A} (P Q : A -> Prop) `{!forall x, Decision (P x)}
    `{!forall x, Decision (Q x)} (l : list A) :
  (forall x, x ∈ l -> P x <-> Q x) -> filter P l = filter Q l.
Proof.
  induction l as [|x l IH]; intros Hl; [done|].
  assert (filter P l = filter Q l) as Hrec
    by (apply IH; intros y Hy; apply Hl; by right).
  destruct (decide (P x)) as [Hx|Hx].
  - rewrite !filter_cons_True by (done || by apply Hl; [left|]).
    by rewrite Hrec.
  - rewrite !filter_cons_False; [done| |done].
    intros HQ. apply Hx, Hl; [by left | done].
Qed.

(** X11. The others file holds the input with the selected reads struck
    out: the ids written to it are exactly the ids of the input that were
    not selected, in the order of the input, in either mode. The ids are the
    keys of a dictionary, hence distinct. *)
Theorem others_keep_input_order
        (np : numpy) (record_dict : list (string * Z)) (f : filt)
        (selected rest : list string) :
  NoDup record_dict.*1 ->
  numpy_contract np record_dict.*2 ->
  extract_long_reads np record_dict f true = Ok (selected, Some rest) ->
  rest = filter (fun x => x ∉ selected) record_dict.*1
  /\ rest `sublist_of` record_dict.*1.
Proof.
  intros Hids Hnp Hex.
  assert (rest = filter (fun x => x ∉ selected) record_dict.*1) as ->;
    [|split; [done | apply sublist_filter]].
  destruct (longest_indices np record_dict.*2 f) as [chosen|e] eqn:Hch.
  2:{ by rewrite (extract_raises _ _ _ _ _ Hch) in Hex. }
  destruct (longest_indices_NoDup _ _ _ _ Hnp Hch) as [Hnd Hin].
  rewrite length_fmap in Hin.
  rewrite (extract_of_chosen _ _ _ true _ Hch Hin) in Hex.
  injection Hex as <- <-.
  pose proof (ids_at_all record_dict.*1) as Hall. rewrite length_fmap in Hall.
  transitivity (filter (fun x => x ∉ ids_at record_dict.*1 chosen)
                  (ids_at record_dict.*1 (seq 0 (length record_dict))));
    [|by rewrite Hall].
  change (ids_at record_dict.*1 (seq 0 (length record_dict)))
    with ((fun i => record_dict.*1 !!! i) <$> seq 0 (length record_dict)).
  rewrite filter_fmap_pre. unfold ids_at at 1. f_equal.
  apply filter_ext_in.
  intros i Hi%elem_of_seq.
  assert (record_dict.*1 !! i = Some (record_dict.*1 !!! i)) as Hlook.
  { apply list_lookup_lookup_total_lt. rewrite length_fmap. lia. }
  assert (record_dict.*1 !!! i ∈ ids_at record_dict.*1 chosen <-> i ∈ chosen)
    as Hiff; [|by rewrite Hiff].
  rewrite elem_of_ids_at by (intros j Hj; rewrite length_fmap; auto).
  split.
  - intros (j & Hj & Hjx).
    by rewrite (NoDup_lookup _ _ _ _ Hids Hlook Hjx).
  - intros Hc. by exists i.
Qed.

Lemma others_keep_input_order_witness :
  extract_long_reads np_stable abc (longest 34) true = Ok (["a"], Some ["b"; "c"])
  /\ ["b"; "c"] = filter (fun x => x ∉ ["a"]) abc.*1
  /\ ["b"; "c"] `sublist_of` abc.*1.
Proof.
  split; [reflexivity|].
  apply (others_keep_input_order np_stable abc (longest 34) ["a"] ["b"; "c"]).
  - apply abc_ids_NoDup.
  - apply np_stable_contract.
  - reflexivity.
Defined.

(** The value of the loop is the [last] it was started with, or one of the
    turns it went through. *)
Lemma bases_loop_last lengths budget js i cumsum last last' :
  bases_loop lengths budget js i cumsum last = Ok last' ->
  last' = last \/ (i <= last' < i + length js)%nat.
Proof.
  revert i cumsum last. induction js as [|j js IH]; intros i cumsum last.
  - cbn [bases_loop]. intros [= <-]. by left.
  - cbn [bases_loop]. destruct (py_index lengths j) as [len|e]; [|done].
    rewrite bind_Ok. cbv zeta.
    destruct (budget <? wrap64 (cumsum + len)).
    + intros [= <-]. by left.
    + intros [->|H]%IH; right; cbn [length]; lia.
Qed.

Lemma bases_chosen np lengths budget :
  is_argsort lengths (argsort np lengths) = true ->
  exists last,
    bases_loop lengths budget (argsort np lengths) 1 0 1 = Ok last
    /\ longest_indices np lengths (bases budget)
       = Ok (take last (reverse (argsort np lengths))).
Proof.
  intros Hsort.
  destruct (bases_loop_Ok lengths budget (argsort np lengths) 1 0 1)
    as [last Hlast].
  { intros j. by apply (index_array_elem _ _ _ (argsort_index_array _ _ Hsort)). }
  exists last. split; [done|]. cbn [longest_indices]. by rewrite Hlast.
Qed.

Lemma ascending_lookup a p i j x y :
  ascending a p = true -> (i <= j)%nat ->
  p !! i = Some x -> p !! j = Some y -> key a x <= key a y.
Proof.
  intros Hasc Hij Hx Hy.
  destruct (decide (i = j)) as [->|Hne]; [by simplify_eq|].
  apply (ascending_take_drop a p j); [done| |].
  - apply elem_of_take. exists i. split; [done | lia].
  - apply list_elem_of_lookup. exists 0%nat.
    by rewrite lookup_drop, Nat.add_0_r.
Qed.

(** X12. With [--bases] the selection never fails and never comes back
    empty: for every budget, also zero or negative, and every collection
    that is not empty, at least one read and at most all of them are
    selected. *)
Theorem bases_selects_some
        (np : numpy) (record_dict : list (string * Z)) (budget : Z)
        (others : bool) :
  numpy_contract np record_dict.*2 ->
  record_dict <> [] ->
  exists selected rest,
    extract_long_reads np record_dict (bases budget) others
    = Ok (selected, rest)
    /\ (1 <= length selected <= length record_dict)%nat.
Proof.
  intros [Hsort _] Hne.
  destruct (bases_chosen np record_dict.*2 budget Hsort)
    as (last & Hloop & Hch).
  pose proof (index_array_length _ _ (argsort_index_array _ _ Hsort)) as Hlen.
  rewrite length_fmap in Hlen.
  assert (forall i, i ∈ take last (reverse (argsort np record_dict.*2)) ->
                    (i < length record_dict)%nat) as Hin.
  { intros i Hi%subseteq_take. rewrite elem_of_reverse in Hi.
    apply (index_array_elem _ _ _ (argsort_index_array _ _ Hsort)) in Hi.
    by rewrite length_fmap in Hi. }
  eexists _, _. split; [exact (extract_of_chosen _ _ _ others _ Hch Hin)|].
  unfold ids_at. rewrite length_fmap, length_take, length_reverse, Hlen.
  apply bases_loop_last in Hloop. rewrite Hlen in Hloop.
  destruct record_dict; [done|]. cbn [length] in *. lia.
Qed.

Lemma bases_selects_some_witness :
  exists selected rest,
    extract_long_reads np_stable abc (bases (-5)) true = Ok (selected, rest)
    /\ (1 <= length selected <= length abc)%nat.
Proof.
  apply (bases_selects_some np_stable abc (-5) true).
  - apply np_stable_contract.
  - discriminate.
Defined.

(** X13. With [--bases] the reads are selected from the longest down:
    every selected read is at least as long as every read that is not
    selected, and the selected reads are written in descending order of
    length. *)
Theorem bases_selected_are_longest
        (np : numpy) (record_dict : list (string * Z)) (budget : Z)
        (selected rest : list string) :
  NoDup record_dict.*1 ->
  numpy_contract np record_dict.*2 ->
  extract_long_reads np record_dict (bases budget) true
  = Ok (selected, Some rest) ->
  (forall x lx y ly,
      x ∈ selected -> y ∈ rest ->
      (x, lx) ∈ record_dict -> (y, ly) ∈ record_dict -> ly <= lx)
  /\ (forall i j x lx y ly,
         (i <= j)%nat -> selected !! i = Some x -> selected !! j = Some y ->
         (x, lx) ∈ record_dict -> (y, ly) ∈ record_dict -> ly <= lx).
Proof.
  intros Hnd [Hsort _] Hex.
  destruct (bases_chosen np record_dict.*2 budget Hsort)
    as (last & _ & Hch).
  pose proof (argsort_index_array _ _ Hsort) as Hidx.
  apply andb_prop in Hsort as [_ Hasc].
  pose proof (index_array_length _ _ Hidx) as Hlen.
  set (p := argsort np record_dict.*2) in *.
  set (n := length record_dict.*2) in *.
  assert (length record_dict.*1 = n) as Hlen1
    by (unfold n; by rewrite !length_fmap).
  assert (forall i, i ∈ take last (reverse p) -> (i < length record_dict)%nat)
    as Hin.
  { intros i Hi%subseteq_take. rewrite elem_of_reverse in Hi.
    apply (index_array_elem _ _ _ Hidx) in Hi.
    unfold n in Hi. by rewrite length_fmap in Hi. }
  rewrite (extract_of_chosen _ _ _ true _ Hch Hin) in Hex.
  injection Hex as <- <-. split.
  - intros x lx y ly Hx Hy Hxl Hyl.
    apply elem_of_ids_at in Hx as (i & Hi & Hxi);
      [|intros ? ?; rewrite length_fmap; auto].
    apply elem_of_ids_at in Hy as (j & Hj & Hyj).
    2:{ intros ? [_ ?%elem_of_seq]%list_elem_of_filter.
        rewrite length_fmap. lia. }
    apply list_elem_of_filter in Hj as [Hj Hjn%elem_of_seq].
    rewrite <- (record_length record_dict i x lx) by done.
    rewrite <- (record_length record_dict j y ly) by done.
    rewrite take_reverse in Hi, Hj. rewrite elem_of_reverse in Hi, Hj.
    apply (ascending_take_drop _ p (length p - last)); [done | | done].
    assert (j ∈ p) as Hjp.
    { apply (index_array_elem _ _ _ Hidx). fold n. rewrite <- Hlen1.
      rewrite length_fmap. lia. }
    rewrite <- (take_drop (length p - last) p) in Hjp.
    by apply elem_of_app in Hjp as [?|?].
  - intros i j x lx y ly Hij Hx Hy Hxl Hyl.
    unfold ids_at in Hx, Hy. rewrite list_lookup_fmap in Hx, Hy.
    destruct (take last (reverse p) !! i) as [ci|] eqn:Hci; [|done].
    destruct (take last (reverse p) !! j) as [cj|] eqn:Hcj; [|done].
    injection Hx as <-. injection Hy as <-.
    assert (ci ∈ take last (reverse p)) as Hci'
      by (by eapply list_elem_of_lookup_2).
    assert (cj ∈ take last (reverse p)) as Hcj'
      by (by eapply list_elem_of_lookup_2).
    apply Hin in Hci', Hcj'.
    rewrite <- (record_length record_dict ci (record_dict.*1 !!! ci) lx);
      [|done| |done].
    2:{ apply list_lookup_lookup_total_lt. by rewrite length_fmap. }
    rewrite <- (record_length record_dict cj (record_dict.*1 !!! cj) ly);
      [|done| |done].
    2:{ apply list_lookup_lookup_total_lt. by rewrite length_fmap. }
    apply lookup_take_Some in Hci as [Hci _].
    apply lookup_take_Some in Hcj as [Hcj _].
    assert (j < length p)%nat as Hjlt.
    { apply lookup_lt_Some in Hcj. by rewrite length_reverse in Hcj. }
    rewrite reverse_lookup in Hci, Hcj by lia.
    apply (ascending_lookup _ p (length p - S j) (length p - S i));
      [done | lia | done | done].
Qed.

Lemma bases_selected_are_longest_witness :
  extract_long_reads np_stable abc (bases 120) true
  = Ok (["a"; "b"], Some ["c"])
  /\ (forall x lx y ly,
         x ∈ ["a"; "b"] -> y ∈ ["c"] ->
         (x, lx) ∈ abc -> (y, ly) ∈ abc -> ly <= lx)
  /\ (forall i j x lx y ly,
         (i <= j)%nat ->
         ["a"; "b"] !! i = Some x -> ["a"; "b"] !! j = Some y ->
         (x, lx) ∈ abc -> (y, ly) ∈ abc -> ly <= lx).
Proof.
  split; [reflexivity|].
  apply (bases_selected_are_longest np_stable abc 120 ["a"; "b"] ["c"]).
  - apply abc_ids_NoDup.
  - apply np_stable_contract.
  - reflexivity.
Defined.

Lemma wrap64_small z : - 2^63 <= z < 2^63 -> wrap64 z = z.
Proof. intros Hz. unfold wrap64. rewrite Z.mod_small; lia. Qed.

Lemma total_nonneg l : Forall (fun x => 0 <= x) l -> 0 <= total l.
Proof.
  induction 1 as [|x l Hx _ IH]; [done|]. cbn [total foldr]. fold (total l). lia.
Qed.

Lemma total_perm l k : l ≡ₚ k -> total l = total k.
Proof.
  unfold total.
  induction 1 as [|x l k _ IH|x y l|l k m _ IH1 _ IH2]; cbn [foldr]; lia.
Qed.

Lemma key_seq a : key a <$> seq 0 (length a) = a.
Proof.
  apply list_eq. intros i. rewrite list_lookup_fmap.
  destruct (decide (i < length a)%nat) as [Hi|Hi].
  - rewrite lookup_seq_lt by done. simpl. unfold key.
    destruct (lookup_lt_is_Some_2 a i Hi) as [x Hx].
    by rewrite Hx, (nth_lookup_Some _ _ _ _ Hx).
  - rewrite lookup_seq_ge by lia. by rewrite lookup_ge_None_2 by lia.
Qed.

Lemma py_index_key lengths j :
  (j < length lengths)%nat -> py_index lengths j = Ok (key lengths j).
Proof.
  intros Hj. unfold py_index, key.
  destruct (lookup_lt_is_Some_2 lengths j Hj) as [x Hx].
  by rewrite Hx, (nth_lookup_Some _ _ _ _ Hx).
Qed.

(** Where the budget holds all that is left, the loop runs to its end. *)
Lemma bases_loop_all lengths budget js i cumsum last :
  (forall j, j ∈ js -> (j < length lengths)%nat /\ 0 <= key lengths j) ->
  0 <= cumsum ->
  cumsum + total (key lengths <$> js) <= budget ->
  cumsum + total (key lengths <$> js) < 2^63 ->
  bases_loop lengths budget js i cumsum last
  = Ok (match js with [] => last | _ => i + length js - 1 end)%nat.
Proof.
  revert i cumsum last. induction js as [|j js IH];
    intros i cumsum last Hjs Hc Hbudget Hsmall; [done|].
  cbn [bases_loop]. cbn [fmap list_fmap total foldr] in Hbudget, Hsmall.
  fold (total (key lengths <$> js)) in Hbudget, Hsmall.
  destruct (Hjs j) as [Hj Hkey]; [by left|].
  assert (0 <= total (key lengths <$> js)) as Hrest.
  { apply total_nonneg, Forall_fmap, Forall_forall.
    intros j' Hj'. apply Hjs. by right. }
  rewrite (py_index_key _ _ Hj), bind_Ok. cbv zeta.
  rewrite wrap64_small by lia.
  destruct (Z.ltb_spec budget (cumsum + key lengths j)) as [?|_]; [lia|].
  rewrite IH; try lia.
  - f_equal. destruct js; cbn [length]; lia.
  - intros j' Hj'. apply Hjs. by right.
Qed.

(** X14. With [--bases], a budget that holds all the bases selects all
    the reads and leaves nothing for the others file. The lengths are those
    of reads, not negative, and their sum fits a 64-bit integer. *)
Theorem bases_budget_covers_all
        (np : numpy) (record_dict : list (string * Z)) (budget : Z) :
  numpy_contract np record_dict.*2 ->
  Forall (fun l => 0 <= l) record_dict.*2 ->
  total record_dict.*2 < 2^63 ->
  total record_dict.*2 <= budget ->
  exists selected,
    extract_long_reads np record_dict (bases budget) true
    = Ok (selected, Some [])
    /\ selected ≡ₚ record_dict.*1.
Proof.
  intros [Hsort _] Hpos Hsmall Hbudget.
  destruct (bases_chosen np record_dict.*2 budget Hsort)
    as (last & Hloop & Hch).
  pose proof (argsort_index_array _ _ Hsort) as Hidx.
  pose proof (index_array_length _ _ Hidx) as Hlen.
  pose proof (index_array_perm _ _ Hidx) as Hperm.
  set (p := argsort np record_dict.*2) in *.
  assert (total (key record_dict.*2 <$> p) = total record_dict.*2) as Htotal.
  { transitivity
      (total (key record_dict.*2 <$> seq 0 (length record_dict.*2)));
      [|by rewrite key_seq].
    apply total_perm, fmap_Permutation. by symmetry. }
  rewrite bases_loop_all in Hloop; try (rewrite ?Htotal; lia).
  2:{ intros j Hj. apply (index_array_elem _ _ _ Hidx) in Hj. split; [done|].
      rewrite Forall_forall in Hpos. apply Hpos. unfold key.
      destruct (lookup_lt_is_Some_2 _ _ Hj) as [x Hx].
      rewrite (nth_lookup_Some _ _ _ _ Hx).
      by eapply list_elem_of_lookup_2. }
  assert (take last (reverse p) = reverse p) as Hall.
  { apply take_ge. rewrite length_reverse. injection Hloop as <-.
    destruct p; cbn [length]; lia. }
  rewrite Hall in Hch.
  assert (forall i, i ∈ reverse p <-> (i < length record_dict)%nat) as Hin.
  { intros i. rewrite elem_of_reverse, (index_array_elem _ _ _ Hidx).
    by rewrite length_fmap. }
  rewrite (extract_of_chosen _ _ _ true _ Hch) by (intros i; apply Hin).
  rewrite filter_none.
  2:{ intros i Hi%elem_of_seq Hni. apply Hni, Hin. lia. }
  eexists. split; [done|].
  pose proof (ids_at_all record_dict.*1) as Hids.
  rewrite <- Hids at 2. apply ids_at_perm.
  rewrite reverse_Permutation, length_fmap. symmetry.
  by rewrite length_fmap in Hperm.
Qed.

Lemma bases_budget_covers_all_witness :
  exists selected,
    extract_long_reads np_stable abc (bases 160) true = Ok (selected, Some [])
    /\ selected ≡ₚ abc.*1.
Proof.
  apply (bases_budget_covers_all np_stable abc 160).
  - apply np_stable_contract.
  - repeat constructor; discriminate.
  - reflexivity.
  - discriminate.
Defined.

(** X15. With [--bases], a budget below the length of the shortest read
    still selects one read, a longest one: the budget is then exceeded. *)
Theorem bases_budget_below_shortest
        (np : numpy) (record_dict : list (string * Z)) (budget : Z) :
  numpy_contract np record_dict.*2 ->
  record_dict <> [] ->
  Forall (fun l => budget < l /\ 0 <= l < 2^63) record_dict.*2 ->
  exists x lx rest,
    extract_long_reads np record_dict (bases budget) true
    = Ok ([x], Some rest)
    /\ (x, lx) ∈ record_dict
    /\ forall y ly, (y, ly) ∈ record_dict -> ly <= lx.
Proof.
  intros [Hsort _] Hne Hall.
  pose proof (argsort_index_array _ _ Hsort) as Hidx.
  pose proof (index_array_length _ _ Hidx) as Hlen.
  assert (ascending record_dict.*2 (argsort np record_dict.*2) = true)
    as Hasc by (by apply andb_prop in Hsort as [_ ?]).
  assert (forall j, j ∈ argsort np record_dict.*2 ->
                    exists y ly, record_dict !! j = Some (y, ly)
                                 /\ key record_dict.*2 j = ly
                                 /\ budget < ly /\ 0 <= ly < 2^63) as Hkey.
  { intros j Hj%(index_array_elem _ _ _ Hidx). rewrite length_fmap in Hj.
    destruct (lookup_lt_is_Some_2 _ _ Hj) as [[y ly] Hy].
    assert (record_dict.*2 !! j = Some ly) as Hly
      by (by rewrite list_lookup_fmap, Hy).
    exists y, ly. split; [done|]. unfold key.
    rewrite (nth_lookup_Some _ _ _ _ Hly). split; [done|].
    rewrite Forall_forall in Hall. apply Hall.
    by eapply list_elem_of_lookup_2. }
  assert (longest_indices np record_dict.*2 (bases budget)
          = Ok (take 1 (reverse (argsort np record_dict.*2)))) as Hch.
  { cbn [longest_indices].
    destruct (argsort np record_dict.*2) as [|j js] eqn:Hp; [done|].
    destruct (Hkey j) as (y & ly & Hy & Hk & Hb & Hr); [by left|].
    cbn [bases_loop]. rewrite py_index_key.
    2:{ apply lookup_lt_Some in Hy. by rewrite length_fmap. }
    rewrite bind_Ok. cbv zeta. rewrite Hk, wrap64_small by lia.
    destruct (Z.ltb_spec budget (0 + ly)) as [_|?]; [done | lia]. }
  set (p := argsort np record_dict.*2) in *.
  assert (length p = length record_dict) as Hlenp
    by (by rewrite Hlen, length_fmap).
  assert (0 < length record_dict)%nat as Hpos
    by (destruct record_dict; [done | cbn [length]; lia]).
  destruct (lookup_lt_is_Some_2 p (length p - 1)) as [z Hz]; [lia|].
  assert (take 1 (reverse p) = [z]) as Hone.
  { apply list_eq. intros [|i].
    - rewrite lookup_take_lt, reverse_lookup by lia.
      exact Hz.
    - by rewrite lookup_take_ge by lia. }
  rewrite Hone in Hch.
  assert (z ∈ p) as Hzp by (by eapply list_elem_of_lookup_2).
  destruct (Hkey z Hzp) as (x & lx & Hx & Hkx & _).
  assert (forall i, i ∈ [z] -> (i < length record_dict)%nat) as Hin.
  { intros i ->%list_elem_of_singleton. by apply lookup_lt_Some in Hx. }
  rewrite (extract_of_chosen _ _ _ true _ Hch Hin).
  exists x, lx. eexists. split; [|split].
  - unfold ids_at at 1. cbn [fmap list_fmap].
    assert (record_dict.*1 !! z = Some x) as Hx1
      by (by rewrite list_lookup_fmap, Hx).
    by rewrite (list_lookup_total_correct _ _ _ Hx1).
  - by eapply list_elem_of_lookup_2.
  - intros y ly (j & Hj)%list_elem_of_lookup.
    assert (j ∈ p) as (ij & Hij)%list_elem_of_lookup.
    { apply (index_array_elem _ _ _ Hidx). rewrite length_fmap.
      by apply lookup_lt_Some in Hj. }
    assert (key record_dict.*2 j = ly) as <-.
    { unfold key. apply nth_lookup_Some. by rewrite list_lookup_fmap, Hj. }
    rewrite <- Hkx.
    apply (ascending_lookup _ p ij (length p - 1)); [done| |done|done].
    apply lookup_lt_Some in Hij. lia.
Qed.

Lemma bases_budget_below_shortest_witness :
  exists x lx rest,
    extract_long_reads np_stable abc (bases 5) true = Ok ([x], Some rest)
    /\ (x, lx) ∈ abc
    /\ forall y ly, (y, ly) ∈ abc -> ly <= lx.
Proof.
  apply (bases_budget_below_shortest np_stable abc 5).
  - apply np_stable_contract.
  - discriminate.
  - repeat constructor; discriminate.
Defined.

Lemma bases_loop_mono lengths b1 b2 js i cumsum last1 last2 l1 l2 :
  b1 <= b2 -> (last1 <= last2)%nat -> (last1 <= i)%nat ->
  bases_loop lengths b1 js i cumsum last1 = Ok l1 ->
  bases_loop lengths b2 js i cumsum last2 = Ok l2 ->
  (l1 <= l2)%nat.
Proof.
  intros Hb. revert i cumsum last1 last2.
  induction js as [|j js IH]; intros i cumsum last1 last2 Hlast Hi.
  - cbn [bases_loop]. intros [= <-] [= <-]. done.
  - cbn [bases_loop]. destruct (py_index lengths j) as [len|e]; [|done].
    rewrite !bind_Ok. cbv zeta.
    destruct (Z.ltb_spec b1 (wrap64 (cumsum + len))) as [H1|H1];
      destruct (Z.ltb_spec b2 (wrap64 (cumsum + len))) as [H2|H2]; try lia.
    + intros [= <-] [= <-]. done.
    + intros [= <-] [->|H]%bases_loop_last; lia.
    + apply IH; lia.
Qed.

Lemma take_prefix_le {A} (l : list A) m n :
  (m <= n)%nat -> take m l `prefix_of` take n l.
Proof.
  intros Hmn. exists (take (n - m) (drop m l)).
  rewrite take_take_drop. f_equal. lia.
Qed.

(** X16. With [--bases] a larger budget never selects less: the reads
    selected for a budget are the first of those selected for any larger
    budget, in the same order. No assumption on the lengths is needed. *)
Theorem bases_monotone
        (np : numpy) (record_dict : list (string * Z)) (b1 b2 : Z)
        (others : bool) :
  numpy_contract np record_dict.*2 ->
  b1 <= b2 ->
  exists selected1 rest1 selected2 rest2,
    extract_long_reads np record_dict (bases b1) others
    = Ok (selected1, rest1)
    /\ extract_long_reads np record_dict (bases b2) others
       = Ok (selected2, rest2)
    /\ selected1 `prefix_of` selected2.
Proof.
  intros [Hsort _] Hb.
  destruct (bases_chosen np record_dict.*2 b1 Hsort) as (l1 & Hl1 & Hch1).
  destruct (bases_chosen np record_dict.*2 b2 Hsort) as (l2 & Hl2 & Hch2).
  assert (forall l i, i ∈ take l (reverse (argsort np record_dict.*2)) ->
                      (i < length record_dict)%nat) as Hin.
  { intros l i Hi%subseteq_take. rewrite elem_of_reverse in Hi.
    apply (index_array_elem _ _ _ (argsort_index_array _ _ Hsort)) in Hi.
    by rewrite length_fmap in Hi. }
  eexists _, _, _, _.
  split; [exact (extract_of_chosen _ _ _ others _ Hch1 (Hin l1))|].
  split; [exact (extract_of_chosen _ _ _ others _ Hch2 (Hin l2))|].
  assert (l1 <= l2)%nat as Hl
    by apply (bases_loop_mono _ _ _ _ _ _ _ _ _ _ Hb (le_n 1) (le_n 1) Hl1 Hl2).
  destruct (take_prefix_le (reverse (argsort np record_dict.*2)) l1 l2 Hl)
    as [k ->].
  exists (ids_at record_dict.*1 k). apply ids_at_app.
Qed.

Lemma bases_monotone_witness :
  exists selected1 rest1 selected2 rest2,
    extract_long_reads np_stable abc (bases 5) true = Ok (selected1, rest1)
    /\ extract_long_reads np_stable abc (bases 120) true
       = Ok (selected2, rest2)
    /\ selected1 `prefix_of` selected2.
Proof.
  apply (bases_monotone np_stable abc 5 120 true).
  - apply np_stable_contract.
  - discriminate.
Defined.

(** * More properties of [parse_regions] *)

Lemma mapM_Ok_Forall2 {A B} (f : A -> result B) l ys :
  mapM f l = Ok ys -> Forall2 (fun x y => f x = Ok y) l ys.
Proof.
  revert ys. induction l as [|x l IH]; intros ys.
  - intros [= <-]. constructor.
  - cbn [mapM]. destruct (f x) as [y|e] eqn:Hx; [|done].
    destruct (mapM f l) as [ys'|e]; [|done].
    intros [= <-]. constructor; [done | by apply IH].
Qed.

Lemma mapM_change {A B C} (k : A -> result C) (g : A -> result B)
    (h : C -> result B) l zs :
  (forall x z, k x = Ok z -> g x = h z) ->
  mapM k l = Ok zs -> mapM g l = mapM h zs.
Proof.
  intros Hgh. revert zs. induction l as [|x l IH]; intros zs.
  - by intros [= <-].
  - cbn [mapM]. destruct (k x) as [z|e] eqn:Hx; [|done].
    destruct (mapM k l) as [zs'|e]; [|done].
    intros [= <-]. cbn [mapM]. by rewrite (Hgh x z Hx), (IH zs').
Qed.

Lemma parse_region_default_end lengths s r :
  parse_region None s = Ok r ->
  parse_region (Some lengths) s = default_end lengths r.
Proof.
  intros Hr. destruct (starts_with is_word s) eqn:Hs.
  2:{ by rewrite (parse_region_unmatched None s Hs) in Hr. }
  destruct (parse_region_matched None s Hs)
    as (sv & ev & Hsv & _ & Hev & _ & HNone).
  destruct (parse_region_matched (Some lengths) s Hs)
    as (sv' & ev' & Hsv' & _ & Hev' & _ & HSome).
  cbv zeta in *. rewrite Hsv in Hsv'. rewrite Hev in Hev'.
  injection Hsv' as <-. injection Hev' as <-.
  rewrite HSome. rewrite HNone in Hr.
  destruct (too_long _ || too_long _); [done|].
  destruct (nonempty _); injection Hr as <-; reflexivity.
Qed.

(** X17. The table of reference lengths touches nothing but absent ends:
    where the strings are decoded without it, decoding them with it gives
    the same Regions with each absent end looked up by the reference name,
    and the first name that is not in the table raises [KeyError]. Names,
    starts and ends that were written are the same. *)
Theorem parse_regions_ref_lengths
        (regions : list string) (lengths : gmap string Z)
        (out : list Region) :
  parse_regions regions None = Ok out ->
  parse_regions regions (Some lengths) = mapM (default_end lengths) out.
Proof.
  unfold parse_regions.
  apply (mapM_change (parse_region None)). intros s r.
  apply parse_region_default_end.
Qed.

Lemma parse_regions_ref_lengths_witness :
  parse_regions ["chr1:5-10"; "chr2:7-"] (Some {[ "chr2" := 99 ]})
  = mapM (default_end {[ "chr2" := 99 ]})
         [ {| ref_name := "chr1"; start := 5; end_ := Some 10 |};
           {| ref_name := "chr2"; start := 7; end_ := None |} ].
Proof.
  apply (parse_regions_ref_lengths ["chr1:5-10"; "chr2:7-"]
           {[ "chr2" := 99 ]}).
  reflexivity.
Defined.

(** X18. Whatever [parse_regions] returns is well formed: one Region for
    each string; the name is a non-empty run of word characters; the start
    is never negative, a dash being dropped and never read as a sign; an end
    is not negative unless it was taken from the table of reference lengths,
    and with such a table every Region has an end. *)
Theorem parse_regions_wellformed
        (regions : list string) (L : option (gmap string Z))
        (out : list Region) :
  parse_regions regions L = Ok out ->
  length out = length regions
  /\ Forall (fun r =>
               nonempty (ref_name r) = true
               /\ all_of is_word (ref_name r) = true
               /\ 0 <= start r
               /\ match end_ r with
                  | Some ev =>
                      0 <= ev
                      \/ exists lengths,
                          L = Some lengths
                          /\ lengths !! ref_name r = Some ev
                  | None => L = None
                  end) out.
Proof.
  intros Hout%mapM_Ok_Forall2. split.
  { symmetry. by eapply Forall2_length. }
  induction Hout as [|s r regions out Hr _ IH]; constructor; [|done].
  destruct (starts_with is_word s) eqn:Hs.
  2:{ by rewrite (parse_region_unmatched L s Hs) in Hr. }
  destruct (parse_region_matched L s Hs)
    as (sv & ev & _ & Hsv & _ & Hev & Heq).
  cbv zeta in Heq. rewrite Heq in Hr.
  assert (nonempty (run is_word s) = true) as Hname
    by (by rewrite nonempty_run).
  pose proof (all_of_run is_word s) as Hword.
  destruct (too_long _ || too_long _); [done|].
  destruct (nonempty (run is_digit _)).
  { injection Hr as <-. cbn. repeat split; try done. by left. }
  destruct L as [lengths|].
  - destruct (lengths !! run is_word s) as [len|] eqn:Hlen; [|done].
    injection Hr as <-. cbn. repeat split; try done. right. by exists lengths.
  - injection Hr as <-. cbn. by repeat split.
Qed.

Lemma parse_regions_wellformed_witness :
  length [ {| ref_name := "chr1"; start := 510; end_ := Some 20 |} ]
  = length ["chr1:5-10-20"]
  /\ Forall (fun r =>
               nonempty (ref_name r) = true
               /\ all_of is_word (ref_name r) = true
               /\ 0 <= start r
               /\ match end_ r with
                  | Some ev =>
                      0 <= ev
                      \/ exists lengths,
                          @None (gmap string Z) = Some lengths
                          /\ lengths !! ref_name r = Some ev
                  | None => @None (gmap string Z) = None
                  end)
            [ {| ref_name := "chr1"; start := 510; end_ := Some 20 |} ].
Proof.
  apply (parse_regions_wellformed ["chr1:5-10-20"] None). reflexivity.
Defined.

(** X19. The colons between the name and the position are not counted:
    with two or more of them the string is decoded as with one. *)
Theorem parse_regions_colons
        (L : option (gmap string Z)) (name colons : string)
        (ds : list string) (e : string) :
  nonempty name = true -> all_of is_word name = true ->
  nonempty colons = true -> all_of is_colon colons = true ->
  Forall digit_run ds -> all_of is_digit e = true ->
  parse_regions [(name ++ colons ++ with_groups ds e)%string] L
  = parse_regions [(name ++ ":" ++ with_groups ds e)%string] L.
Proof.
  intros Hname Hword Hne Hcolons Hds He.
  assert (forall cs, nonempty cs = true -> all_of is_colon cs = true ->
                     starts_with is_word (cs ++ with_groups ds e) = false)
    as Hstart.
  { intros [|c cs] Hn Hc; [done|]. rewrite append_cons. cbn [starts_with].
    cbn [all_of] in Hc. apply andb_prop in Hc as [Hc _].
    by apply colon_not_word. }
  destruct (parse_region_position L name colons ds e)
    as (sv & ev & Hsv & _ & Hev & _ & Heq); auto.
  destruct (parse_region_position L name ":" ds e)
    as (sv' & ev' & Hsv' & _ & Hev' & _ & Heq'); auto.
  rewrite Hsv in Hsv'. rewrite Hev in Hev'.
  injection Hsv' as <-. injection Hev' as <-.
  by rewrite !parse_regions_singleton, Heq, Heq'.
Qed.

Lemma parse_regions_colons_witness :
  parse_regions [("chr1" ++ ":::" ++ with_groups ["5"] "10")%string] None
  = parse_regions [("chr1" ++ ":" ++ with_groups ["5"] "10")%string] None.
Proof.
  apply (parse_regions_colons None "chr1" ":::" ["5"] "10"); try reflexivity.
  repeat constructor.
Defined.
